(** * util_module.c: ring buffer and CRC16-CCITT engine

    A shallow embedding of [util_module.c]: the byte ring buffer
    ([ring_push], [ring_pop], [prv_ring_empty], [prv_ring_full]), the
    CRC16 table engine ([crc16_ccitt], [prv_crc16_build_table]), the
    configuration entry points ([module_init], [module_set_config],
    [module_reset]), the logger ([prv_log], [log_set_level]) and the
    xorshift generator ([srand32], [rand32]).

    The module's file-scope variables are gathered in one record that
    every operation takes and returns.  Undefined behaviour of the C
    program (a remainder by zero, an access outside [s_ring_storage]) is a
    [Fault] of the [result] monad.

    The Welford accumulator works on [double]; its functions, and
    [module_dump] and [module_self_test] with them, are not embedded.  The
    accumulator is carried along because [module_init] clears it. *)

From Stdlib Require Import ZArith Lia Bool.
From Stdlib.Strings Require Import Byte.
From stdpp Require Import base option list.

Local Open Scope Z_scope.

(** ** Machine integers *)

Definition cast_u8 (x : Z) : Z := x mod 2 ^ 8.
Definition cast_u16 (x : Z) : Z := x mod 2 ^ 16.
Definition cast_u32 (x : Z) : Z := x mod 2 ^ 32.
Definition cast_u64 (x : Z) : Z := x mod 2 ^ 64.

Definition byte_val (b : byte) : Z := Z.of_N (Byte.to_N b).

(** ** Undefined behaviour as a fault *)

Inductive fault : Set :=
| DivisionByZero
| IndexOutOfBounds.

Inductive result (A : Type) : Type :=
| Ok (a : A)
| Fault (f : fault).
Arguments Ok {A} a.
Arguments Fault {A} f.

#[global] Instance result_ret : MRet result := fun A a => Ok a.
#[global] Instance result_bind : MBind result := fun A B k m =>
  match m with
  | Ok a => k a
  | Fault f => Fault f
  end.

(** [a % b] on unsigned operands. *)
Definition c_umod (a b : Z) : result Z :=
  if b =? 0 then Fault DivisionByZero else Ok (a mod b).

(** ** Public types *)

Inductive log_level_t : Set :=
| LOG_SILENT
| LOG_ERROR
| LOG_WARN
| LOG_INFO
| LOG_DEBUG.

Definition log_level_val (l : log_level_t) : Z :=
  match l with
  | LOG_SILENT => 0
  | LOG_ERROR => 1
  | LOG_WARN => 2
  | LOG_INFO => 3
  | LOG_DEBUG => 4
  end.

(** [ring_capacity] is unsigned, hence in [N].  [outlier_z] is a [float];
    the functions embedded here only copy it, so it is carried as its
    32-bit pattern. *)
Record module_config_t : Set := {
  magic : Z;
  version : Z;
  ring_capacity : N;
  log_level : log_level_t;
  outlier_z : Z
}.

(** The two [double] fields are carried as bit patterns ([0.0] is [0]). *)
Record welford_t : Set := {
  n : Z;
  mean : Z;
  m2 : Z
}.

(** What [prv_log] prints after the tag: the format string with its
    arguments. *)
Inductive log_text : Set :=
| Text_module_init (cap level : Z)
| Text_set_config (cap level : Z)
| Text_module_reset
| Text_log_set_level (level : Z)
| Text_ring_push_truncated (wanted pushed : Z)
| Text_srand32 (seed : Z).

Record log_line : Set := {
  line_tag : log_level_t;
  line_text : log_text
}.

(** ** The module's variables *)

Definition RING_STORAGE_SIZE : Z := 1024.

(** [stderr_out] is the stream [prv_log] writes to and [storage_trace] the
    indices of [s_ring_storage] that were read or written; both have the
    newest entry first. *)
Record module_state : Type := {
  g_config : module_config_t;
  g_total_bytes_pushed : Z;
  g_total_bytes_popped : Z;
  s_ring_storage : list byte;
  s_ring_head : Z;
  s_ring_tail : Z;
  s_ring_capacity : Z;
  s_log_level : log_level_t;
  s_crc_table_ready : bool;
  s_crc16_table : list Z;
  s_prng_state : Z;
  s_stats : welford_t;
  stderr_out : list log_line;
  storage_trace : list Z
}.

Definition set_g_config (v : module_config_t) (st : module_state) : module_state :=
  {| g_config := v;
     g_total_bytes_pushed := g_total_bytes_pushed st;
     g_total_bytes_popped := g_total_bytes_popped st;
     s_ring_storage := s_ring_storage st;
     s_ring_head := s_ring_head st;
     s_ring_tail := s_ring_tail st;
     s_ring_capacity := s_ring_capacity st;
     s_log_level := s_log_level st;
     s_crc_table_ready := s_crc_table_ready st;
     s_crc16_table := s_crc16_table st;
     s_prng_state := s_prng_state st;
     s_stats := s_stats st;
     stderr_out := stderr_out st;
     storage_trace := storage_trace st |}.

Definition set_g_total_bytes_pushed (v : Z) (st : module_state) : module_state :=
  {| g_config := g_config st;
     g_total_bytes_pushed := v;
     g_total_bytes_popped := g_total_bytes_popped st;
     s_ring_storage := s_ring_storage st;
     s_ring_head := s_ring_head st;
     s_ring_tail := s_ring_tail st;
     s_ring_capacity := s_ring_capacity st;
     s_log_level := s_log_level st;
     s_crc_table_ready := s_crc_table_ready st;
     s_crc16_table := s_crc16_table st;
     s_prng_state := s_prng_state st;
     s_stats := s_stats st;
     stderr_out := stderr_out st;
     storage_trace := storage_trace st |}.

Definition set_g_total_bytes_popped (v : Z) (st : module_state) : module_state :=
  {| g_config := g_config st;
     g_total_bytes_pushed := g_total_bytes_pushed st;
     g_total_bytes_popped := v;
     s_ring_storage := s_ring_storage st;
     s_ring_head := s_ring_head st;
     s_ring_tail := s_ring_tail st;
     s_ring_capacity := s_ring_capacity st;
     s_log_level := s_log_level st;
     s_crc_table_ready := s_crc_table_ready st;
     s_crc16_table := s_crc16_table st;
     s_prng_state := s_prng_state st;
     s_stats := s_stats st;
     stderr_out := stderr_out st;
     storage_trace := storage_trace st |}.

(** A store to, or a load from, [s_ring_storage[i]]: the array and the
    trace change together. *)
Definition set_s_ring_storage (v : list byte) (i : Z) (st : module_state) : module_state :=
  {| g_config := g_config st;
     g_total_bytes_pushed := g_total_bytes_pushed st;
     g_total_bytes_popped := g_total_bytes_popped st;
     s_ring_storage := v;
     s_ring_head := s_ring_head st;
     s_ring_tail := s_ring_tail st;
     s_ring_capacity := s_ring_capacity st;
     s_log_level := s_log_level st;
     s_crc_table_ready := s_crc_table_ready st;
     s_crc16_table := s_crc16_table st;
     s_prng_state := s_prng_state st;
     s_stats := s_stats st;
     stderr_out := stderr_out st;
     storage_trace := i :: storage_trace st |}.

Definition set_s_ring_head (v : Z) (st : module_state) : module_state :=
  {| g_config := g_config st;
     g_total_bytes_pushed := g_total_bytes_pushed st;
     g_total_bytes_popped := g_total_bytes_popped st;
     s_ring_storage := s_ring_storage st;
     s_ring_head := v;
     s_ring_tail := s_ring_tail st;
     s_ring_capacity := s_ring_capacity st;
     s_log_level := s_log_level st;
     s_crc_table_ready := s_crc_table_ready st;
     s_crc16_table := s_crc16_table st;
     s_prng_state := s_prng_state st;
     s_stats := s_stats st;
     stderr_out := stderr_out st;
     storage_trace := storage_trace st |}.

Definition set_s_ring_tail (v : Z) (st : module_state) : module_state :=
  {| g_config := g_config st;
     g_total_bytes_pushed := g_total_bytes_pushed st;
     g_total_bytes_popped := g_total_bytes_popped st;
     s_ring_storage := s_ring_storage st;
     s_ring_head := s_ring_head st;
     s_ring_tail := v;
     s_ring_capacity := s_ring_capacity st;
     s_log_level := s_log_level st;
     s_crc_table_ready := s_crc_table_ready st;
     s_crc16_table := s_crc16_table st;
     s_prng_state := s_prng_state st;
     s_stats := s_stats st;
     stderr_out := stderr_out st;
     storage_trace := storage_trace st |}.

Definition set_s_ring_capacity (v : Z) (st : module_state) : module_state :=
  {| g_config := g_config st;
     g_total_bytes_pushed := g_total_bytes_pushed st;
     g_total_bytes_popped := g_total_bytes_popped st;
     s_ring_storage := s_ring_storage st;
     s_ring_head := s_ring_head st;
     s_ring_tail := s_ring_tail st;
     s_ring_capacity := v;
     s_log_level := s_log_level st;
     s_crc_table_ready := s_crc_table_ready st;
     s_crc16_table := s_crc16_table st;
     s_prng_state := s_prng_state st;
     s_stats := s_stats st;
     stderr_out := stderr_out st;
     storage_trace := storage_trace st |}.

Definition set_s_log_level (v : log_level_t) (st : module_state) : module_state :=
  {| g_config := g_config st;
     g_total_bytes_pushed := g_total_bytes_pushed st;
     g_total_bytes_popped := g_total_bytes_popped st;
     s_ring_storage := s_ring_storage st;
     s_ring_head := s_ring_head st;
     s_ring_tail := s_ring_tail st;
     s_ring_capacity := s_ring_capacity st;
     s_log_level := v;
     s_crc_table_ready := s_crc_table_ready st;
     s_crc16_table := s_crc16_table st;
     s_prng_state := s_prng_state st;
     s_stats := s_stats st;
     stderr_out := stderr_out st;
     storage_trace := storage_trace st |}.

Definition set_s_crc_table_ready (v : bool) (st : module_state) : module_state :=
  {| g_config := g_config st;
     g_total_bytes_pushed := g_total_bytes_pushed st;
     g_total_bytes_popped := g_total_bytes_popped st;
     s_ring_storage := s_ring_storage st;
     s_ring_head := s_ring_head st;
     s_ring_tail := s_ring_tail st;
     s_ring_capacity := s_ring_capacity st;
     s_log_level := s_log_level st;
     s_crc_table_ready := v;
     s_crc16_table := s_crc16_table st;
     s_prng_state := s_prng_state st;
     s_stats := s_stats st;
     stderr_out := stderr_out st;
     storage_trace := storage_trace st |}.

Definition set_s_crc16_table (v : list Z) (st : module_state) : module_state :=
  {| g_config := g_config st;
     g_total_bytes_pushed := g_total_bytes_pushed st;
     g_total_bytes_popped := g_total_bytes_popped st;
     s_ring_storage := s_ring_storage st;
     s_ring_head := s_ring_head st;
     s_ring_tail := s_ring_tail st;
     s_ring_capacity := s_ring_capacity st;
     s_log_level := s_log_level st;
     s_crc_table_ready := s_crc_table_ready st;
     s_crc16_table := v;
     s_prng_state := s_prng_state st;
     s_stats := s_stats st;
     stderr_out := stderr_out st;
     storage_trace := storage_trace st |}.

Definition set_s_prng_state (v : Z) (st : module_state) : module_state :=
  {| g_config := g_config st;
     g_total_bytes_pushed := g_total_bytes_pushed st;
     g_total_bytes_popped := g_total_bytes_popped st;
     s_ring_storage := s_ring_storage st;
     s_ring_head := s_ring_head st;
     s_ring_tail := s_ring_tail st;
     s_ring_capacity := s_ring_capacity st;
     s_log_level := s_log_level st;
     s_crc_table_ready := s_crc_table_ready st;
     s_crc16_table := s_crc16_table st;
     s_prng_state := v;
     s_stats := s_stats st;
     stderr_out := stderr_out st;
     storage_trace := storage_trace st |}.

Definition set_s_stats (v : welford_t) (st : module_state) : module_state :=
  {| g_config := g_config st;
     g_total_bytes_pushed := g_total_bytes_pushed st;
     g_total_bytes_popped := g_total_bytes_popped st;
     s_ring_storage := s_ring_storage st;
     s_ring_head := s_ring_head st;
     s_ring_tail := s_ring_tail st;
     s_ring_capacity := s_ring_capacity st;
     s_log_level := s_log_level st;
     s_crc_table_ready := s_crc_table_ready st;
     s_crc16_table := s_crc16_table st;
     s_prng_state := s_prng_state st;
     s_stats := v;
     stderr_out := stderr_out st;
     storage_trace := storage_trace st |}.

Definition set_stderr_out (v : list log_line) (st : module_state) : module_state :=
  {| g_config := g_config st;
     g_total_bytes_pushed := g_total_bytes_pushed st;
     g_total_bytes_popped := g_total_bytes_popped st;
     s_ring_storage := s_ring_storage st;
     s_ring_head := s_ring_head st;
     s_ring_tail := s_ring_tail st;
     s_ring_capacity := s_ring_capacity st;
     s_log_level := s_log_level st;
     s_crc_table_ready := s_crc_table_ready st;
     s_crc16_table := s_crc16_table st;
     s_prng_state := s_prng_state st;
     s_stats := s_stats st;
     stderr_out := v;
     storage_trace := storage_trace st |}.

(** The variables as their initialisers leave them at program start. *)
Definition initial_state : module_state :=
  {| g_config := {| magic := 0xC0FFEE; version := 1; ring_capacity := 256%N;
                    log_level := LOG_INFO; outlier_z := 0x40400000 |};
     g_total_bytes_pushed := 0;
     g_total_bytes_popped := 0;
     s_ring_storage := replicate 1024 x00;
     s_ring_head := 0;
     s_ring_tail := 0;
     s_ring_capacity := 0;
     s_log_level := LOG_INFO;
     s_crc_table_ready := false;
     s_crc16_table := replicate 256 0;
     s_prng_state := 0x12345678;
     s_stats := {| n := 0; mean := 0; m2 := 0 |};
     stderr_out := [];
     storage_trace := [] |}.

(** ** Static helpers *)

(** [prv_log]: the line is dropped when [lvl > s_log_level] or
    [lvl == LOG_SILENT]. *)
Definition prv_log (lvl : log_level_t) (text : log_text) (st : module_state) : module_state :=
  if (log_level_val lvl >? log_level_val (s_log_level st))
     || (log_level_val lvl =? log_level_val LOG_SILENT)
  then st
  else set_stderr_out ({| line_tag := lvl; line_text := text |} :: stderr_out st) st.

Definition prv_ring_empty (st : module_state) : bool :=
  s_ring_head st =? s_ring_tail st.

Definition prv_ring_full (st : module_state) : result bool :=
  m ← c_umod (cast_u32 (s_ring_head st + 1)) (s_ring_capacity st);
  mret (cast_u16 m =? s_ring_tail st).

(** [s_ring_storage[i] = b] *)
Definition storage_store (i : Z) (b : byte) (st : module_state) : result module_state :=
  if (0 <=? i) && (i <? RING_STORAGE_SIZE)
  then mret (set_s_ring_storage (<[Z.to_nat i := b]> (s_ring_storage st)) i st)
  else Fault IndexOutOfBounds.

(** [s_ring_storage[i]] *)
Definition storage_load (i : Z) (st : module_state) : result (module_state * byte) :=
  if (0 <=? i) && (i <? RING_STORAGE_SIZE)
  then mret (set_s_ring_storage (s_ring_storage st) i st,
             default x00 (s_ring_storage st !! Z.to_nat i))
  else Fault IndexOutOfBounds.

(** ** CRC16 table engine *)

Definition crc16_poly : Z := 0x1021.

(** One round of the inner loop of [prv_crc16_build_table]. *)
Definition crc16_table_round (crc : Z) : Z :=
  if Z.land crc 0x8000 =? 0
  then cast_u16 (Z.shiftl crc 1)
  else cast_u16 (Z.lxor (Z.shiftl crc 1) crc16_poly).

Definition crc16_table_entry (i : Z) : Z :=
  Nat.iter 8 crc16_table_round (cast_u16 (Z.shiftl i 8)).

Definition prv_crc16_build_table (st : module_state) : module_state :=
  set_s_crc16_table
    (fold_left (fun tbl (i : nat) => <[i := crc16_table_entry (Z.of_nat i)]> tbl)
               (seq 0 256) (s_crc16_table st))
    st.

(** The body of the [for] loop of [crc16_ccitt]. *)
Definition crc16_update (tbl : list Z) (crc : Z) (b : byte) : Z :=
  let idx := cast_u8 (Z.lxor (Z.shiftr crc 8) (byte_val b)) in
  cast_u16 (Z.lxor (Z.shiftl crc 8) (default 0 (tbl !! Z.to_nat idx))).

Definition crc16_ccitt (data : list byte) (st : module_state) : module_state * Z :=
  let st1 := if s_crc_table_ready st then st
             else set_s_crc_table_ready true (prv_crc16_build_table st) in
  (st1, fold_left (crc16_update (s_crc16_table st1)) data 0xFFFF).

(** ** Public functions *)

(** [ring_capacity == 0u || ring_capacity > sizeof(s_ring_storage)] *)
Definition capacity_invalid (cfg : module_config_t) : bool :=
  (Z.of_N (ring_capacity cfg) =? 0) || (Z.of_N (ring_capacity cfg) >? RING_STORAGE_SIZE).

(** [module_init]; [cfg = None] is the NULL pointer. *)
Definition module_init (cfg : option module_config_t) (st : module_state) : module_state * bool :=
  let use := match cfg with Some c => c | None => g_config st end in
  if capacity_invalid use then (st, false)
  else
    let st := set_g_config use st in
    let st := set_s_log_level (log_level (g_config st)) st in
    let st := set_s_ring_capacity (Z.of_N (ring_capacity (g_config st))) st in
    let st := set_s_ring_head 0 (set_s_ring_tail 0 st) in
    let st := set_s_crc_table_ready false st in
    let st := set_s_prng_state 0xCAFEBABE st in
    let st := set_s_stats {| n := 0; mean := 0; m2 := 0 |} st in
    let st := prv_log LOG_INFO
                (Text_module_init (s_ring_capacity st) (log_level_val (s_log_level st))) st in
    (st, true).

Definition module_set_config (cfg : option module_config_t) (st : module_state) : module_state * bool :=
  match cfg with
  | None => (st, false)
  | Some c =>
      if capacity_invalid c then (st, false)
      else
        let st := set_g_config c st in
        let st := set_s_log_level (log_level (g_config st)) st in
        let st := set_s_ring_capacity (Z.of_N (ring_capacity (g_config st))) st in
        let st := set_s_ring_head 0 (set_s_ring_tail 0 st) in
        let st := prv_log LOG_DEBUG
                    (Text_set_config (s_ring_capacity st) (log_level_val (s_log_level st))) st in
        (st, true)
  end.

Definition module_reset (st : module_state) : module_state :=
  let st := set_s_ring_head 0 (set_s_ring_tail 0 st) in
  let st := set_g_total_bytes_pushed 0 st in
  let st := set_g_total_bytes_popped 0 st in
  prv_log LOG_INFO Text_module_reset st.

Definition log_set_level (level : log_level_t) (st : module_state) : module_state :=
  let st := set_s_log_level level st in
  prv_log LOG_INFO (Text_log_set_level (log_level_val level)) st.

(** The [while] loop of [ring_push]: [p] is what is left of the input, so
    [pushed < len] is [p <> []]. *)
Fixpoint ring_push_loop (p : list byte) (pushed : nat) (st : module_state)
  : result (module_state * nat) :=
  match p with
  | [] => mret (st, pushed)
  | b :: p' =>
      full ← prv_ring_full st;
      if full : bool then mret (st, pushed)
      else
        st ← storage_store (s_ring_head st) b st;
        h ← c_umod (cast_u32 (s_ring_head st + 1)) (s_ring_capacity st);
        ring_push_loop p' (S pushed) (set_s_ring_head (cast_u16 h) st)
  end.

(** [ring_push(data, len)]: [None] is the NULL pointer, [Some p] a pointer
    to the [len = length p] bytes [p]. *)
Definition ring_push (data : option (list byte)) (st : module_state)
  : result (module_state * nat) :=
  match data with
  | None => mret (st, 0%nat)
  | Some [] => mret (st, 0%nat)
  | Some p =>
      '(st, pushed) ← ring_push_loop p 0 st;
      let st := set_g_total_bytes_pushed
                  (cast_u64 (g_total_bytes_pushed st + Z.of_nat pushed)) st in
      let st := if (pushed <? length p)%nat
                then prv_log LOG_WARN
                       (Text_ring_push_truncated (Z.of_nat (length p)) (Z.of_nat pushed)) st
                else st in
      mret (st, pushed)
  end.

(** The [while] loop of [ring_pop]: [len] counts down what [popped < len]
    still allows and [out] is [p[0 .. popped)]. *)
Fixpoint ring_pop_loop (len : nat) (out : list byte) (st : module_state)
  : result (module_state * list byte) :=
  match len with
  | O => mret (st, out)
  | S len' =>
      if prv_ring_empty st then mret (st, out)
      else
        '(st, b) ← storage_load (s_ring_tail st) st;
        t ← c_umod (cast_u32 (s_ring_tail st + 1)) (s_ring_capacity st);
        ring_pop_loop len' (out ++ [b]) (set_s_ring_tail (cast_u16 t) st)
  end.

(** [ring_pop(out, len)]: [out] tells whether the pointer is non-NULL; the
    result is the bytes written to it, and its length the returned count. *)
Definition ring_pop (out : bool) (len : nat) (st : module_state)
  : result (module_state * list byte) :=
  if negb out || (len =? 0)%nat then mret (st, [])
  else
    '(st, popped) ← ring_pop_loop len [] st;
    let st := set_g_total_bytes_popped
                (cast_u64 (g_total_bytes_popped st + Z.of_nat (length popped))) st in
    mret (st, popped).

Definition srand32 (seed : Z) (st : module_state) : module_state :=
  let st := set_s_prng_state (if seed =? 0 then 1 else seed) st in
  prv_log LOG_DEBUG (Text_srand32 (s_prng_state st)) st.

Definition rand32 (st : module_state) : module_state * Z :=
  let x := s_prng_state st in
  let x := Z.lxor x (cast_u32 (Z.shiftl x 13)) in
  let x := Z.lxor x (Z.shiftr x 17) in
  let x := Z.lxor x (cast_u32 (Z.shiftl x 5)) in
  (set_s_prng_state x st, x).

(** ** Calls of the public interface *)

Inductive api_call : Type :=
| Call_module_init (cfg : option module_config_t)
| Call_module_set_config (cfg : option module_config_t)
| Call_module_reset
| Call_log_set_level (level : log_level_t)
| Call_ring_push (data : option (list byte))
| Call_ring_pop (out : bool) (len : nat)
| Call_crc16_ccitt (data : list byte)
| Call_srand32 (seed : Z)
| Call_rand32.

Inductive api_ret : Type :=
| Ret_void
| Ret_bool (b : bool)
| Ret_pushed (count : nat)
| Ret_popped (bytes : list byte)
| Ret_u16 (v : Z)
| Ret_u32 (v : Z).

Definition api_step (c : api_call) (st : module_state) : result (module_state * api_ret) :=
  match c with
  | Call_module_init cfg =>
      let '(st, b) := module_init cfg st in mret (st, Ret_bool b)
  | Call_module_set_config cfg =>
      let '(st, b) := module_set_config cfg st in mret (st, Ret_bool b)
  | Call_module_reset => mret (module_reset st, Ret_void)
  | Call_log_set_level level => mret (log_set_level level st, Ret_void)
  | Call_ring_push data =>
      '(st, k) ← ring_push data st; mret (st, Ret_pushed k)
  | Call_ring_pop out len =>
      '(st, bs) ← ring_pop out len st; mret (st, Ret_popped bs)
  | Call_crc16_ccitt data =>
      let '(st, v) := crc16_ccitt data st in mret (st, Ret_u16 v)
  | Call_srand32 seed => mret (srand32 seed st, Ret_void)
  | Call_rand32 =>
      let '(st, v) := rand32 st in mret (st, Ret_u32 v)
  end.

(** A program calling the interface: the calls in order, each on the state
    the previous one left; the first fault ends it. *)
Fixpoint api_run (cs : list api_call) (st : module_state)
  : result (module_state * list api_ret) :=
  match cs with
  | [] => mret (st, [])
  | c :: cs' =>
      '(st, r) ← api_step c st;
      '(st, rs) ← api_run cs' st;
      mret (st, r :: rs)
  end.

(** The state and the returned values at the end of a run; the starting
    state and nothing when it faults. *)
Definition final_state (cs : list api_call) (st : module_state) : module_state :=
  match api_run cs st with
  | Ok (st', _) => st'
  | Fault _ => st
  end.

Definition final_rets (cs : list api_call) (st : module_state) : list api_ret :=
  match api_run cs st with
  | Ok (_, rs) => rs
  | Fault _ => []
  end.

(** ** Vocabulary of the properties *)

(** The ring after a configuration call was accepted: the capacity is
    within the backing array and both indices are below it. *)
Record ring_configured (st : module_state) : Prop := {
  cfg_capacity : 1 <= s_ring_capacity st <= RING_STORAGE_SIZE;
  cfg_head : 0 <= s_ring_head st < s_ring_capacity st;
  cfg_tail : 0 <= s_ring_tail st < s_ring_capacity st;
  cfg_storage : length (s_ring_storage st) = 1024%nat
}.

(** The ring before any configuration call was accepted. *)
Record ring_unconfigured (st : module_state) : Prop := {
  uncfg_capacity : s_ring_capacity st = 0;
  uncfg_head : s_ring_head st = 0;
  uncfg_tail : s_ring_tail st = 0;
  uncfg_storage : length (s_ring_storage st) = 1024%nat
}.

(** The states a program can reach. *)
Definition ring_ok (st : module_state) : Prop :=
  ring_configured st \/ ring_unconfigured st.

(** [n] bytes of the array from index [t] on, wrapping at [cap]. *)
Fixpoint ring_walk (storage : list byte) (cap : Z) (n : nat) (t : Z) : list byte :=
  match n with
  | O => []
  | S n' => default x00 (storage !! Z.to_nat t) :: ring_walk storage cap n' ((t + 1) mod cap)
  end.

(** Distance from the read index to the write index. *)
Definition ring_count (st : module_state) : Z :=
  (s_ring_head st - s_ring_tail st) mod s_ring_capacity st.

(** The queued bytes, oldest first. *)
Definition ring_queued (st : module_state) : list byte :=
  ring_walk (s_ring_storage st) (s_ring_capacity st)
            (Z.to_nat (ring_count st)) (s_ring_tail st).

Definition ring_free (st : module_state) : Z :=
  s_ring_capacity st - 1 - ring_count st.

(** The fields that neither [ring_push] nor [ring_pop] writes. *)
Record ring_frame (st st' : module_state) : Prop := {
  frame_config : g_config st' = g_config st;
  frame_capacity : s_ring_capacity st' = s_ring_capacity st;
  frame_log_level : s_log_level st' = s_log_level st;
  frame_crc_ready : s_crc_table_ready st' = s_crc_table_ready st;
  frame_crc_table : s_crc16_table st' = s_crc16_table st;
  frame_prng : s_prng_state st' = s_prng_state st;
  frame_stats : s_stats st' = s_stats st
}.

(** The ring and the two counters are as they were. *)
Record ring_same (st st' : module_state) : Prop := {
  same_capacity : s_ring_capacity st' = s_ring_capacity st;
  same_head : s_ring_head st' = s_ring_head st;
  same_tail : s_ring_tail st' = s_ring_tail st;
  same_storage : s_ring_storage st' = s_ring_storage st;
  same_pushed : g_total_bytes_pushed st' = g_total_bytes_pushed st;
  same_popped : g_total_bytes_popped st' = g_total_bytes_popped st
}.

(** Calls that touch neither the ring nor the counters. *)
Definition is_passive (c : api_call) : bool :=
  match c with
  | Call_log_set_level _ | Call_crc16_ccitt _ | Call_srand32 _ | Call_rand32 => true
  | _ => false
  end.

(** The state in which the ring fields and the trace are replaced. *)
Definition ring_update (storage : list byte) (h t : Z) (trace : list Z)
    (st : module_state) : module_state :=
  {| g_config := g_config st;
     g_total_bytes_pushed := g_total_bytes_pushed st;
     g_total_bytes_popped := g_total_bytes_popped st;
     s_ring_storage := storage;
     s_ring_head := h;
     s_ring_tail := t;
     s_ring_capacity := s_ring_capacity st;
     s_log_level := s_log_level st;
     s_crc_table_ready := s_crc_table_ready st;
     s_crc16_table := s_crc16_table st;
     s_prng_state := s_prng_state st;
     s_stats := s_stats st;
     stderr_out := stderr_out st;
     storage_trace := trace |}.

(** What [ring_push] of the bytes [p] does to a configured ring, [k] being
    the returned count. *)
Record ring_push_post (st : module_state) (p : list byte)
    (st' : module_state) (k : nat) : Prop := {
  push_count : k = Nat.min (length p) (Z.to_nat (ring_free st));
  push_configured : ring_configured st';
  push_tail : s_ring_tail st' = s_ring_tail st;
  push_ring_count : ring_count st' = ring_count st + Z.of_nat k;
  push_queued : ring_queued st' = ring_queued st ++ take k p;
  push_total_pushed :
    g_total_bytes_pushed st'
    = match p with
      | [] => g_total_bytes_pushed st
      | _ => cast_u64 (g_total_bytes_pushed st + Z.of_nat k)
      end;
  push_total_popped : g_total_bytes_popped st' = g_total_bytes_popped st;
  push_frame : ring_frame st st';
  push_trace :
    exists new, storage_trace st' = new ++ storage_trace st
                /\ Forall (fun i => 0 <= i < s_ring_capacity st) new
}.

(** What [ring_pop] of at most [len] bytes into a non-NULL buffer does to
    a configured ring, [out] being the bytes copied. *)
Record ring_pop_post (st : module_state) (len : nat)
    (st' : module_state) (out : list byte) : Prop := {
  pop_bytes : out = take len (ring_queued st);
  pop_configured : ring_configured st';
  pop_head : s_ring_head st' = s_ring_head st;
  pop_storage : s_ring_storage st' = s_ring_storage st;
  pop_ring_count : ring_count st' = ring_count st - Z.of_nat (length out);
  pop_queued : ring_queued st' = drop len (ring_queued st);
  pop_total_popped :
    g_total_bytes_popped st'
    = match len with
      | O => g_total_bytes_popped st
      | _ => cast_u64 (g_total_bytes_popped st + Z.of_nat (length out))
      end;
  pop_total_pushed : g_total_bytes_pushed st' = g_total_bytes_pushed st;
  pop_frame : ring_frame st st';
  pop_stderr : stderr_out st' = stderr_out st;
  pop_trace :
    exists new, storage_trace st' = new ++ storage_trace st
                /\ Forall (fun i => 0 <= i < s_ring_capacity st) new
}.

(** Bytes that a call moved into the ring, negative when it moved them
    out, as its caller sees them in the returned counts. *)
Definition ret_net (r : api_ret) : Z :=
  match r with
  | Ret_pushed k => Z.of_nat k
  | Ret_popped bs => - Z.of_nat (length bs)
  | _ => 0
  end.

Definition net_bytes (rs : list api_ret) : Z :=
  foldr (fun r acc => ret_net r + acc) 0 rs.

Definition is_ring_io (c : api_call) : bool :=
  match c with
  | Call_ring_push _ | Call_ring_pop _ _ => true
  | _ => false
  end.

Definition is_reset (c : api_call) : bool :=
  match c with
  | Call_module_reset => true
  | _ => false
  end.

(** Whether the call is a configuration call that the module accepts in
    state [st]. *)
Definition config_accepted (c : api_call) (st : module_state) : bool :=
  match c with
  | Call_module_init cfg => snd (module_init cfg st)
  | Call_module_set_config cfg => snd (module_set_config cfg st)
  | _ => false
  end.

Definition is_configure (c : api_call) : bool :=
  match c with
  | Call_module_init _ | Call_module_set_config _ => true
  | _ => false
  end.

(** What a configuration call that asks for capacity [c] in state [st] owes
    its caller, [r] being the state it leaves and the value it returns. *)
Definition configure_contract (c : N) (st : module_state) (r : module_state * bool) : Prop :=
  (snd r = true <-> 1 <= Z.of_N c <= RING_STORAGE_SIZE)
  /\ (snd r = false -> fst r = st)
  /\ (snd r = true ->
      s_ring_capacity (fst r) = Z.of_N c
      /\ s_ring_head (fst r) = 0
      /\ s_ring_tail (fst r) = 0
      /\ ring_free (fst r) = Z.of_N c - 1
      /\ forall data, exists st',
           ring_push (Some data) (fst r)
           = Ok (st', Nat.min (length data) (N.to_nat c - 1))).

(** Every accepted configuration call of the run finds the ring empty. *)
Fixpoint configures_when_empty (cs : list api_call) (st : module_state) : bool :=
  match cs with
  | [] => true
  | c :: cs' =>
      (if config_accepted c st then prv_ring_empty st else true)
      && match api_step c st with
         | Ok (st', _) => configures_when_empty cs' st'
         | Fault _ => true
         end
  end.

(** [g_total_bytes_pushed - g_total_bytes_popped], as the C expression on
    [uint64_t] computes it, is the number of queued bytes. *)
Definition conserved (st : module_state) : Prop :=
  cast_u64 (g_total_bytes_pushed st - g_total_bytes_popped st) = ring_count st.

(** The table that [prv_crc16_build_table] leaves. *)
Definition crc16_table_built : list Z :=
  (fun i : nat => crc16_table_entry (Z.of_nat i)) <$> seq 0 256.

Record crc_table_inv (st : module_state) : Prop := {
  crc_table_length : length (s_crc16_table st) = 256%nat;
  crc_table_ready : s_crc_table_ready st = true -> s_crc16_table st = crc16_table_built
}.

(** Bit-by-bit CRC-16/CCITT-FALSE, as the standard describes it: the
    register starts at [0xFFFF]; each message byte is XORed into its high
    byte, and then eight times the register is doubled modulo [2^16] and
    the polynomial [0x1021] is XORed in when the bit shifted out was set. *)
Definition crc16_reference_bit (crc : Z) : Z :=
  let doubled := (2 * crc) mod 65536 in
  if Z.testbit crc 15 then Z.lxor doubled 0x1021 else doubled.

Definition crc16_reference_byte (crc : Z) (b : byte) : Z :=
  Nat.iter 8 crc16_reference_bit (Z.lxor crc (256 * byte_val b)).

Definition crc16_reference (data : list byte) : Z :=
  fold_left crc16_reference_byte data 0xFFFF.

(** The ASCII bytes of "123456789". *)
Definition check_vector : list byte := [x31; x32; x33; x34; x35; x36; x37; x38; x39].

Definition cfg_with_capacity (c : N) : module_config_t :=
  {| magic := 0xC0FFEE; version := 1; ring_capacity := c;
     log_level := LOG_INFO; outlier_z := 0x40400000 |}.

(** ** Vocabulary of further properties *)

(** A bounded first-in first-out queue holding at most [cap - 1] bytes:
    what [ring_push] and [ring_pop] are to their caller.  A NULL pointer
    transfers nothing. *)
Definition queue_step (cap : Z) (c : api_call) (q : list byte) : list byte * api_ret :=
  match c with
  | Call_ring_push data =>
      let p := match data with Some p => p | None => [] end in
      let k := Nat.min (length p) (Z.to_nat (cap - 1) - length q) in
      (q ++ take k p, Ret_pushed k)
  | Call_ring_pop out len =>
      let len := if out then len else O in
      (drop len q, Ret_popped (take len q))
  | _ => (q, Ret_void)
  end.

Fixpoint queue_run (cap : Z) (cs : list api_call) (q : list byte)
  : list byte * list api_ret :=
  match cs with
  | [] => (q, [])
  | c :: cs' =>
      let '(q1, r) := queue_step cap c q in
      let '(q2, rs) := queue_run cap cs' q1 in
      (q2, r :: rs)
  end.

(** The counts that [ring_push] calls returned, summed, and the lengths of
    what [ring_pop] calls returned. *)
Definition pushed_total (rs : list api_ret) : Z :=
  foldr (fun r acc => match r with Ret_pushed k => Z.of_nat k + acc | _ => acc end) 0 rs.

Definition popped_total (rs : list api_ret) : Z :=
  foldr (fun r acc => match r with Ret_popped bs => Z.of_nat (length bs) + acc | _ => acc end)
        0 rs.

(** The seed of a [srand32] call is a [uint32_t]. *)
Definition call_typed (c : api_call) : bool :=
  match c with
  | Call_srand32 seed => (0 <=? seed) && (seed <? 2 ^ 32)
  | _ => true
  end.

(** [g_config] holds a capacity that [module_init] accepts, and the active
    capacity is zero or mirrors it. *)
Record config_inv (st : module_state) : Prop := {
  config_valid : capacity_invalid (g_config st) = false;
  config_mirrored :
    s_ring_capacity st = 0 \/ s_ring_capacity st = Z.of_N (ring_capacity (g_config st))
}.

Definition prng_inv (st : module_state) : Prop := 0 < s_prng_state st < 2 ^ 32.

(** ** The signed/unsigned fixture of example.c *)

(** Conversion to [int8_t], two's complement. *)
Definition cast_i8 (x : Z) : Z := (x + 128) mod 2 ^ 8 - 128.

(** [mix_signed_unsigned]: both arguments are widened to [int], where the
    sum of a [uint8_t] and an [int8_t] cannot overflow. *)
Definition mix_signed_unsigned (ua ib : Z) : Z :=
  let tmp := ua + ib in
  cast_u8 tmp.

(** The macro [CLAMP_U8]. *)
Definition CLAMP_U8 (x : Z) : Z :=
  cast_u8 (if x >? 255 then 255 else if x <? 0 then 0 else x).

(** * Proofs *)

(** Case analysis on every integer comparison that guards a conditional,
    then on the bare ones. *)
Ltac case_cmp :=
  repeat match goal with
         | H : context [if _ then _ else _] |- _ => revert H
         | |- context [if ?a <=? ?b then _ else _] => destruct (Z.leb_spec a b)
         | |- context [if ?a =? ?b then _ else _] => destruct (Z.eqb_spec a b)
         | |- context [?a <=? ?b] => destruct (Z.leb_spec a b)
         | |- context [?a =? ?b] => destruct (Z.eqb_spec a b)
         end;
  intros.

(** Closed goals about concrete states: evaluate, then read off. *)
Ltac by_evaluation :=
  solve [ vm_compute; repeat split; first [reflexivity | discriminate | intro; discriminate]
        | cbn; lia ].

(** ** Machine arithmetic *)

Lemma cast_u16_small x : 0 <= x < 2 ^ 16 -> cast_u16 x = x.
Proof. intros H. unfold cast_u16. apply Z.mod_small. exact H. Qed.

Lemma cast_u32_small x : 0 <= x < 2 ^ 32 -> cast_u32 x = x.
Proof. intros H. unfold cast_u32. apply Z.mod_small. exact H. Qed.

Lemma succ_mod_cases h c :
  0 <= h < c -> (h + 1) mod c = if h + 1 =? c then 0 else h + 1.
Proof.
  intros H. destruct (Z.eqb_spec (h + 1) c) as [E | E].
  - rewrite E. apply Z.mod_same. lia.
  - apply Z.mod_small. lia.
Qed.

Lemma sub_mod_cases h t c :
  0 <= h < c -> 0 <= t < c ->
  (h - t) mod c = if t <=? h then h - t else h - t + c.
Proof.
  intros Hh Ht. destruct (Z.leb_spec t h) as [E | E].
  - apply Z.mod_small. lia.
  - symmetry. apply (Z.mod_unique_pos _ _ (-1)); lia.
Qed.

(** The index after [i], as both loops compute it. *)
Lemma ring_next_value i c :
  1 <= c <= RING_STORAGE_SIZE -> 0 <= i < c ->
  c_umod (cast_u32 (i + 1)) c = Ok ((i + 1) mod c)
  /\ cast_u16 ((i + 1) mod c) = (i + 1) mod c
  /\ 0 <= (i + 1) mod c < c.
Proof.
  unfold RING_STORAGE_SIZE. intros Hc Hi.
  assert (Hm : 0 <= (i + 1) mod c < c) by (apply Z.mod_pos_bound; lia).
  split; [| split; [| exact Hm]].
  - unfold c_umod. destruct (Z.eqb_spec c 0) as [E | _]; [lia |].
    rewrite cast_u32_small; [reflexivity | lia].
  - apply cast_u16_small. lia.
Qed.

(** ** The ring as a queue *)

Section RingWalk.
Variable cap : Z.
Hypothesis cap_pos : 1 <= cap.

Lemma ring_walk_length (s : list byte) k t : length (ring_walk s cap k t) = k.
Proof.
  revert t. induction k as [| k IH]; intros t; simpl; [reflexivity |].
  now rewrite IH.
Qed.

(** A store at an index the walk does not reach leaves it as it was. *)
Lemma ring_walk_store_beyond (s : list byte) h b k :
  0 <= h < cap ->
  forall t, 0 <= t < cap -> Z.of_nat k <= (h - t) mod cap ->
  ring_walk (<[Z.to_nat h := b]> s) cap k t = ring_walk s cap k t.
Proof.
  intros Hh. induction k as [| k IH]; intros t Ht Hd; simpl; [reflexivity |].
  rewrite sub_mod_cases in Hd by lia.
  assert (Hnext : 0 <= (t + 1) mod cap < cap) by (apply Z.mod_pos_bound; lia).
  assert (Hfar : t <> h /\ Z.of_nat k <= (h - (t + 1) mod cap) mod cap).
  { rewrite sub_mod_cases by lia. revert Hd Hnext.
    rewrite succ_mod_cases by lia. intros Hd Hnext. revert Hd.
    case_cmp; lia. }
  destruct Hfar as [Hne Hfar].
  rewrite list_lookup_insert_ne by lia.
  f_equal. apply IH; assumption.
Qed.

(** The walk of one more byte ends with the byte [k] places on. *)
Lemma ring_walk_snoc (s : list byte) k :
  forall t, 0 <= t < cap ->
  ring_walk s cap (S k) t
  = ring_walk s cap k t ++ [default x00 (s !! Z.to_nat ((t + Z.of_nat k) mod cap))].
Proof.
  induction k as [| k IH]; intros t Ht.
  - simpl. rewrite Z.add_0_r, Z.mod_small by lia. reflexivity.
  - change (ring_walk s cap (S (S k)) t)
      with (default x00 (s !! Z.to_nat t) :: ring_walk s cap (S k) ((t + 1) mod cap)).
    rewrite IH by (apply Z.mod_pos_bound; lia).
    rewrite Z.add_mod_idemp_l by lia.
    replace (t + 1 + Z.of_nat k) with (t + Z.of_nat (S k)) by lia.
    reflexivity.
Qed.
End RingWalk.

Lemma ring_count_range st :
  ring_configured st -> 0 <= ring_count st < s_ring_capacity st.
Proof.
  intros [Hc Hh Ht _]. unfold ring_count. apply Z.mod_pos_bound. lia.
Qed.

Lemma ring_count_cases st :
  ring_configured st ->
  ring_count st = if s_ring_tail st <=? s_ring_head st
                  then s_ring_head st - s_ring_tail st
                  else s_ring_head st - s_ring_tail st + s_ring_capacity st.
Proof.
  intros [Hc Hh Ht _]. unfold ring_count. apply sub_mod_cases; assumption.
Qed.

Lemma ring_head_from_tail st :
  ring_configured st ->
  (s_ring_tail st + ring_count st) mod s_ring_capacity st = s_ring_head st.
Proof.
  intros Hcfg. rewrite (ring_count_cases st Hcfg). destruct Hcfg as [Hc Hh Ht _].
  destruct (Z.leb_spec (s_ring_tail st) (s_ring_head st)).
  - rewrite Z.mod_small by lia. lia.
  - symmetry. apply (Z.mod_unique_pos _ _ 1); lia.
Qed.

(** [prv_ring_empty] holds exactly when no byte is queued. *)
Lemma prv_ring_empty_count st :
  ring_configured st -> prv_ring_empty st = (ring_count st =? 0).
Proof.
  intros Hcfg. rewrite (ring_count_cases st Hcfg). destruct Hcfg as [Hc Hh Ht _].
  unfold prv_ring_empty.
  destruct (Z.leb_spec (s_ring_tail st) (s_ring_head st));
    destruct (Z.eqb_spec (s_ring_head st) (s_ring_tail st));
    symmetry; [apply Z.eqb_eq | apply Z.eqb_neq | apply Z.eqb_eq | apply Z.eqb_neq]; lia.
Qed.

(** [prv_ring_full] holds exactly when no slot is free. *)
Lemma prv_ring_full_free st :
  ring_configured st -> prv_ring_full st = Ok (ring_free st =? 0).
Proof.
  intros Hcfg. unfold prv_ring_full, ring_free.
  rewrite (ring_count_cases st Hcfg). destruct Hcfg as [Hc Hh Ht _].
  destruct (ring_next_value (s_ring_head st) (s_ring_capacity st) Hc Hh) as (-> & E & _).
  cbn. rewrite E. f_equal.
  rewrite succ_mod_cases by lia.
  case_cmp; lia.
Qed.

(** One round of the loop of [ring_push] on a ring that is not full. *)
Lemma ring_push_round st b :
  ring_configured st -> 0 < ring_free st ->
  let st1 := set_s_ring_head ((s_ring_head st + 1) mod s_ring_capacity st)
               (set_s_ring_storage (<[Z.to_nat (s_ring_head st) := b]> (s_ring_storage st))
                                   (s_ring_head st) st) in
  ring_configured st1
  /\ ring_count st1 = ring_count st + 1
  /\ ring_queued st1 = ring_queued st ++ [b].
Proof.
  intros Hcfg Hfree st1.
  pose proof (ring_count_range st Hcfg) as Hcount.
  pose proof (ring_head_from_tail st Hcfg) as Hhead.
  pose proof (ring_count_cases st Hcfg) as Hcases.
  destruct Hcfg as [Hc Hh Ht Hs]. unfold ring_free in Hfree.
  assert (Hnext : 0 <= (s_ring_head st + 1) mod s_ring_capacity st < s_ring_capacity st)
    by (apply Z.mod_pos_bound; lia).
  assert (Hcount1 : ring_count st1 = ring_count st + 1).
  { unfold ring_count at 1. subst st1. cbn.
    rewrite sub_mod_cases by lia. rewrite Hcases. revert Hnext Hcases.
    rewrite succ_mod_cases by lia. intros Hnext Hcases. revert Hcases.
    case_cmp; lia. }
  split; [| split].
  - subst st1. constructor; cbn; try assumption. now rewrite length_insert.
  - exact Hcount1.
  - unfold ring_queued at 1. rewrite Hcount1.
    replace (Z.to_nat (ring_count st + 1)) with (S (Z.to_nat (ring_count st))) by lia.
    subst st1. unfold set_s_ring_head, set_s_ring_storage.
    cbn [s_ring_storage s_ring_capacity s_ring_tail s_ring_head].
    rewrite ring_walk_snoc by lia.
    rewrite Z2Nat.id by lia. rewrite Hhead.
    rewrite list_lookup_insert_eq by (unfold RING_STORAGE_SIZE in Hc; lia).
    rewrite ring_walk_store_beyond; [reflexivity | lia | lia | lia |].
    fold (ring_count st). lia.
Qed.

(** One round of the loop of [ring_pop] on a ring that is not empty. *)
Lemma ring_pop_round st :
  ring_configured st -> 0 < ring_count st ->
  let st1 := set_s_ring_tail ((s_ring_tail st + 1) mod s_ring_capacity st)
               (set_s_ring_storage (s_ring_storage st) (s_ring_tail st) st) in
  ring_configured st1
  /\ ring_count st1 = ring_count st - 1
  /\ ring_queued st
     = default x00 (s_ring_storage st !! Z.to_nat (s_ring_tail st)) :: ring_queued st1.
Proof.
  intros Hcfg Hpos st1.
  pose proof (ring_count_cases st Hcfg) as Hcases.
  destruct Hcfg as [Hc Hh Ht Hs].
  assert (Hnext : 0 <= (s_ring_tail st + 1) mod s_ring_capacity st < s_ring_capacity st)
    by (apply Z.mod_pos_bound; lia).
  assert (Hcount1 : ring_count st1 = ring_count st - 1).
  { unfold ring_count at 1. subst st1. cbn.
    rewrite sub_mod_cases by lia. revert Hpos. rewrite Hcases. revert Hnext.
    rewrite succ_mod_cases by lia. intros Hnext.
    case_cmp; lia. }
  split; [| split].
  - subst st1. constructor; cbn; assumption.
  - exact Hcount1.
  - unfold ring_queued. rewrite Hcount1.
    replace (Z.to_nat (ring_count st)) with (S (Z.to_nat (ring_count st - 1))) by lia.
    reflexivity.
Qed.

Lemma bind_Ok {A B} (a : A) (k : A -> result B) : (Ok a ≫= k) = k a.
Proof. reflexivity. Qed.

Lemma ring_update_same st :
  ring_update (s_ring_storage st) (s_ring_head st) (s_ring_tail st) (storage_trace st) st = st.
Proof. destruct st. reflexivity. Qed.

Lemma ring_update_absorb_head s h t tr x y i st :
  ring_update s h t tr (set_s_ring_head x (set_s_ring_storage y i st))
  = ring_update s h t tr st.
Proof. reflexivity. Qed.

Lemma ring_update_absorb_tail s h t tr x y i st :
  ring_update s h t tr (set_s_ring_tail x (set_s_ring_storage y i st))
  = ring_update s h t tr st.
Proof. reflexivity. Qed.

Lemma storage_store_in_range i b st :
  0 <= i < RING_STORAGE_SIZE ->
  storage_store i b st
  = Ok (set_s_ring_storage (<[Z.to_nat i := b]> (s_ring_storage st)) i st).
Proof.
  intros H. unfold storage_store.
  destruct (Z.leb_spec 0 i); [| lia]. destruct (Z.ltb_spec i RING_STORAGE_SIZE); [| lia].
  reflexivity.
Qed.

Lemma storage_load_in_range i st :
  0 <= i < RING_STORAGE_SIZE ->
  storage_load i st
  = Ok (set_s_ring_storage (s_ring_storage st) i st,
        default x00 (s_ring_storage st !! Z.to_nat i)).
Proof.
  intros H. unfold storage_load.
  destruct (Z.leb_spec 0 i); [| lia]. destruct (Z.ltb_spec i RING_STORAGE_SIZE); [| lia].
  reflexivity.
Qed.

(** The loop of [ring_push] writes as many bytes as the input has or as
    there are free slots, whichever is less, behind the queued ones. *)
Lemma ring_push_loop_spec p :
  forall pushed st, ring_configured st ->
  exists s' h' new,
    let st' := ring_update s' h' (s_ring_tail st) (new ++ storage_trace st) st in
    let k := Nat.min (length p) (Z.to_nat (ring_free st)) in
    ring_push_loop p pushed st = Ok (st', (pushed + k)%nat)
    /\ ring_configured st'
    /\ ring_count st' = ring_count st + Z.of_nat k
    /\ ring_queued st' = ring_queued st ++ take k p
    /\ Forall (fun i => 0 <= i < s_ring_capacity st) new.
Proof.
  induction p as [| b p IH]; intros pushed st Hcfg.
  - exists (s_ring_storage st), (s_ring_head st), []. cbn zeta.
    rewrite app_nil_l, ring_update_same. cbn [length Nat.min take].
    rewrite Nat.add_0_r, Z.add_0_r, app_nil_r. auto.
  - pose proof (ring_count_range st Hcfg) as Hcount.
    cbn [ring_push_loop]. rewrite (prv_ring_full_free st Hcfg), bind_Ok.
    destruct (Z.eqb_spec (ring_free st) 0) as [Hfull | Hfree].
    + exists (s_ring_storage st), (s_ring_head st), []. cbn zeta.
      rewrite app_nil_l, ring_update_same, Hfull.
      rewrite Nat.min_0_r. cbn [take].
      rewrite Nat.add_0_r, Z.add_0_r, app_nil_r. auto.
    + assert (Hpos : 0 < ring_free st) by (unfold ring_free in *; lia).
      destruct (ring_push_round st b Hcfg Hpos) as (Hcfg1 & Hcount1 & Hqueued1).
      destruct Hcfg as [Hc Hh Ht Hs].
      rewrite storage_store_in_range by lia. rewrite bind_Ok.
      cbn [s_ring_head s_ring_capacity set_s_ring_storage].
      destruct (ring_next_value _ _ Hc Hh) as (E1 & E2 & Hnext).
      rewrite E1, bind_Ok, E2. clear E1 E2.
      destruct (IH (S pushed) _ Hcfg1) as (s' & h' & new & Hrun & Hcfg' & Hcount' & Hqueued' & Hnew).
      exists s', h', (new ++ [s_ring_head st]).
      cbn zeta in *. rewrite Hrun. clear Hrun.
      rewrite ring_update_absorb_head in *.
      assert (Hfree1 : forall st1, ring_count st1 = ring_count st + 1 ->
                s_ring_capacity st1 = s_ring_capacity st ->
                Z.to_nat (ring_free st) = S (Z.to_nat (ring_free st1))).
      { intros st1 E1 E2. unfold ring_free in *. rewrite E1, E2. lia. }
      rewrite (Hfree1 _ Hcount1 eq_refl) in *. clear Hfree1.
      cbn [length Nat.min take].
      rewrite <- app_assoc.
      cbn [app set_s_ring_head set_s_ring_storage s_ring_tail storage_trace
           s_ring_capacity] in *.
      split; [f_equal; f_equal; lia |].
      split; [exact Hcfg' |].
      split; [rewrite Hcount', Hcount1; lia |].
      split; [rewrite Hqueued', Hqueued1, <- app_assoc; reflexivity |].
      apply Forall_app. split; [exact Hnew |]. constructor; [lia | constructor].
Qed.

(** The loop of [ring_pop] copies out as many bytes as were asked for or
    as are queued, whichever is less, oldest first. *)
Lemma ring_pop_loop_spec len :
  forall out st, ring_configured st ->
  exists t' new,
    let st' := ring_update (s_ring_storage st) (s_ring_head st) t'
                           (new ++ storage_trace st) st in
    let k := Nat.min len (Z.to_nat (ring_count st)) in
    ring_pop_loop len out st = Ok (st', out ++ take k (ring_queued st))
    /\ ring_configured st'
    /\ ring_count st' = ring_count st - Z.of_nat k
    /\ ring_queued st' = drop k (ring_queued st)
    /\ Forall (fun i => 0 <= i < s_ring_capacity st) new.
Proof.
  induction len as [| len IH]; intros out st Hcfg.
  - exists (s_ring_tail st), []. cbn zeta.
    rewrite app_nil_l, ring_update_same. cbn [Nat.min take drop ring_pop_loop].
    rewrite Z.sub_0_r, app_nil_r. auto.
  - pose proof (ring_count_range st Hcfg) as Hcount.
    cbn [ring_pop_loop]. rewrite (prv_ring_empty_count st Hcfg).
    destruct (Z.eqb_spec (ring_count st) 0) as [Hempty | Hsome].
    + exists (s_ring_tail st), []. cbn zeta.
      rewrite app_nil_l, ring_update_same, Hempty.
      rewrite Nat.min_0_r. cbn [take drop].
      rewrite Z.sub_0_r, app_nil_r. auto.
    + assert (Hpos : 0 < ring_count st) by lia.
      destruct (ring_pop_round st Hcfg Hpos) as (Hcfg1 & Hcount1 & Hqueued).
      destruct Hcfg as [Hc Hh Ht Hs].
      rewrite storage_load_in_range by lia. rewrite bind_Ok. cbv beta iota.
      cbn [s_ring_tail s_ring_capacity set_s_ring_storage].
      destruct (ring_next_value _ _ Hc Ht) as (E1 & E2 & Hnext).
      rewrite E1, bind_Ok, E2. clear E1 E2.
      destruct (IH (out ++ [default x00 (s_ring_storage st !! Z.to_nat (s_ring_tail st))])
                   _ Hcfg1)
        as (t' & new & Hrun & Hcfg' & Hcount' & Hqueued' & Hnew).
      exists t', (new ++ [s_ring_tail st]).
      cbn zeta in *. rewrite Hrun. clear Hrun.
      rewrite ring_update_absorb_tail in *.
      rewrite Hcount1 in *.
      replace (Z.to_nat (ring_count st)) with (S (Z.to_nat (ring_count st - 1))) by lia.
      rewrite Hqueued at 1 2.
      cbn [Nat.min take drop].
      rewrite <- !app_assoc.
      cbn [app set_s_ring_tail set_s_ring_storage s_ring_head s_ring_storage
           storage_trace s_ring_capacity] in *.
      split; [reflexivity |].
      split; [exact Hcfg' |].
      split; [rewrite Hcount'; lia |].
      split; [exact Hqueued' |].
      apply Forall_app. split; [exact Hnew |]. constructor; [lia | constructor].
Qed.

Lemma ring_queued_length st :
  ring_configured st -> length (ring_queued st) = Z.to_nat (ring_count st).
Proof.
  intros [Hc _ _ _]. unfold ring_queued. apply ring_walk_length.
Qed.

(** [prv_log] writes to the stream only. *)
Lemma prv_log_stderr lvl text st :
  exists out, prv_log lvl text st = set_stderr_out out st.
Proof.
  unfold prv_log.
  destruct ((log_level_val lvl >? log_level_val (s_log_level st))
            || (log_level_val lvl =? log_level_val LOG_SILENT)).
  - exists (stderr_out st). destruct st. reflexivity.
  - eexists. reflexivity.
Qed.

Lemma ring_configured_ext st st' :
  s_ring_capacity st' = s_ring_capacity st ->
  s_ring_head st' = s_ring_head st ->
  s_ring_tail st' = s_ring_tail st ->
  length (s_ring_storage st') = length (s_ring_storage st) ->
  ring_configured st -> ring_configured st'.
Proof.
  intros E1 E2 E3 E4 [Hc Hh Ht Hs]. constructor; congruence.
Qed.

Lemma ring_frame_refl st : ring_frame st st.
Proof. constructor; reflexivity. Qed.

Lemma ring_frame_trans st1 st2 st3 :
  ring_frame st1 st2 -> ring_frame st2 st3 -> ring_frame st1 st3.
Proof. intros [] []. constructor; congruence. Qed.

Lemma ring_push_spec data st :
  ring_configured st ->
  exists st' k,
    ring_push data st = Ok (st', k) /\ ring_push_post st (default [] data) st' k.
Proof.
  intros Hcfg.
  assert (Hnone : ring_push_post st [] st 0).
  { constructor; cbn [length Nat.min take]; auto using ring_frame_refl.
    - lia.
    - now rewrite app_nil_r.
    - exists []. auto. }
  destruct data as [[| b p] |]; cbn [default ring_push]; [eauto | | eauto].
  destruct (ring_push_loop_spec (b :: p) 0 st Hcfg)
    as (s' & h' & new & Hrun & Hcfg' & Hcount' & Hqueued' & Hnew).
  cbn zeta in Hrun, Hcfg', Hcount', Hqueued'. rewrite Hrun, bind_Ok. cbv beta iota.
  rewrite Nat.add_0_l in *.
  set (k := Nat.min (length (b :: p)) (Z.to_nat (ring_free st))) in *.
  set (st1 := ring_update s' h' (s_ring_tail st) (new ++ storage_trace st) st) in *.
  set (st2 := set_g_total_bytes_pushed _ st1).
  assert (Hlog : exists out st3, st3 = set_stderr_out out st2 /\
     (if (k <? length (b :: p))%nat
      then prv_log LOG_WARN
             (Text_ring_push_truncated (Z.of_nat (length (b :: p))) (Z.of_nat k)) st2
      else st2) = st3).
  { destruct (k <? length (b :: p))%nat.
    - destruct (prv_log_stderr LOG_WARN
        (Text_ring_push_truncated (Z.of_nat (length (b :: p))) (Z.of_nat k)) st2) as [out ->].
      eauto.
    - exists (stderr_out st2), st2. split; [destruct st2 |]; reflexivity. }
  destruct Hlog as (out & st3 & -> & ->).
  eexists _, k. split; [reflexivity |].
  constructor; try reflexivity; try assumption.
  - eapply ring_configured_ext; [.. | exact Hcfg']; reflexivity.
  - constructor; reflexivity.
  - exists new. auto.
Qed.

Lemma ring_pop_spec out len st :
  ring_configured st ->
  exists st' bs,
    ring_pop out len st = Ok (st', bs)
    /\ ring_pop_post st (if out then len else O) st' bs.
Proof.
  intros Hcfg.
  assert (Hnone : ring_pop_post st 0 st []).
  { constructor; cbn [length take drop]; auto using ring_frame_refl.
    - lia.
    - exists []. auto. }
  unfold ring_pop. destruct out; cbn [negb orb]; [| eauto].
  destruct len as [| len]; cbn [Nat.eqb]; [eauto |].
  destruct (ring_pop_loop_spec (S len) [] st Hcfg)
    as (t' & new & Hrun & Hcfg' & Hcount' & Hqueued' & Hnew).
  cbn zeta in Hrun, Hcfg', Hcount', Hqueued'. rewrite Hrun, bind_Ok. cbv beta iota.
  rewrite app_nil_l in *.
  pose proof (ring_queued_length st Hcfg) as Hlen.
  assert (Htake : forall A (l : list A) a c, length l = c ->
            take (Nat.min a c) l = take a l /\ drop (Nat.min a c) l = drop a l).
  { intros A l a c <-. destruct (Nat.le_ge_cases a (length l)).
    - now rewrite Nat.min_l.
    - rewrite Nat.min_r by assumption.
      now rewrite !take_ge, !drop_ge by lia. }
  destruct (Htake _ (ring_queued st) (S len) _ Hlen) as [Et Ed].
  rewrite Et in *. rewrite Ed in *.
  eexists _, _. split; [reflexivity |].
  constructor; try reflexivity; try assumption.
  - eapply ring_configured_ext; [.. | exact Hcfg']; reflexivity.
  - etransitivity; [exact Hcount' |]. rewrite length_take, Hlen. reflexivity.
  - constructor; reflexivity.
  - exists new. auto.
Qed.

(** ** What the loops leave alone, in any state *)

Lemma bind_Ok_inv {A B} (m : result A) (k : A -> result B) b :
  m ≫= k = Ok b -> exists a, m = Ok a /\ k a = Ok b.
Proof. destruct m as [a | f]; [eauto | discriminate]. Qed.

Lemma ring_push_loop_frame p :
  forall pushed st st' k,
  ring_push_loop p pushed st = Ok (st', k) ->
  ring_frame st st'
  /\ s_ring_tail st' = s_ring_tail st
  /\ g_total_bytes_pushed st' = g_total_bytes_pushed st
  /\ g_total_bytes_popped st' = g_total_bytes_popped st
  /\ stderr_out st' = stderr_out st.
Proof.
  induction p as [| b p IH]; intros pushed st st' k Hrun; cbn [ring_push_loop] in Hrun.
  - injection Hrun as <- _. auto using ring_frame_refl.
  - apply bind_Ok_inv in Hrun as (full & _ & Hrun).
    destruct full.
    + injection Hrun as <- _. auto using ring_frame_refl.
    + apply bind_Ok_inv in Hrun as (st1 & Hstore & Hrun).
      apply bind_Ok_inv in Hrun as (h & _ & Hrun).
      apply IH in Hrun as (Hframe & Htail & Hpushed & Hpopped & Herr).
      unfold storage_store in Hstore.
      destruct ((0 <=? s_ring_head st) && (s_ring_head st <? RING_STORAGE_SIZE));
        [| discriminate].
      injection Hstore as <-.
      destruct Hframe. cbn in *.
      repeat split; assumption.
Qed.

Lemma ring_pop_loop_frame len :
  forall out st st' bs,
  ring_pop_loop len out st = Ok (st', bs) ->
  ring_frame st st'
  /\ s_ring_head st' = s_ring_head st
  /\ s_ring_storage st' = s_ring_storage st
  /\ g_total_bytes_pushed st' = g_total_bytes_pushed st
  /\ g_total_bytes_popped st' = g_total_bytes_popped st
  /\ stderr_out st' = stderr_out st.
Proof.
  induction len as [| len IH]; intros out st st' bs Hrun; cbn [ring_pop_loop] in Hrun.
  - injection Hrun as <- _. auto 7 using ring_frame_refl.
  - destruct (prv_ring_empty st).
    + injection Hrun as <- _. auto 7 using ring_frame_refl.
    + apply bind_Ok_inv in Hrun as ([st1 b] & Hload & Hrun).
      apply bind_Ok_inv in Hrun as (t & _ & Hrun).
      apply IH in Hrun as (Hframe & Hhead & Hstorage & Hpushed & Hpopped & Herr).
      unfold storage_load in Hload.
      destruct ((0 <=? s_ring_tail st) && (s_ring_tail st <? RING_STORAGE_SIZE));
        [| discriminate].
      injection Hload as <- _.
      destruct Hframe. cbn in *.
      repeat split; assumption.
Qed.

(** [ring_push] adds the returned count to [g_total_bytes_pushed], or
    returns early, and writes no other variable outside the ring. *)
Lemma ring_push_frame data st st' k :
  ring_push data st = Ok (st', k) ->
  ring_frame st st'
  /\ s_ring_tail st' = s_ring_tail st
  /\ g_total_bytes_popped st' = g_total_bytes_popped st
  /\ (g_total_bytes_pushed st' = g_total_bytes_pushed st
      \/ g_total_bytes_pushed st' = cast_u64 (g_total_bytes_pushed st + Z.of_nat k)).
Proof.
  intros Hrun.
  destruct data as [[| b p] |]; cbn [ring_push] in Hrun;
    try (injection Hrun as <- _; auto using ring_frame_refl).
  apply bind_Ok_inv in Hrun as ([st1 pushed] & Hloop & Hrun).
  apply ring_push_loop_frame in Hloop as (Hframe & Htail & Hpushed & Hpopped & _).
  injection Hrun as <- <-.
  match goal with
  | |- context [if ?c then prv_log ?l ?t ?s else _] =>
      destruct c; [destruct (prv_log_stderr l t s) as [out ->] |]
  end; destruct Hframe; repeat split; cbn; rewrite ?Hpushed; auto.
Qed.

Lemma ring_pop_frame out len st st' bs :
  ring_pop out len st = Ok (st', bs) ->
  ring_frame st st'
  /\ s_ring_head st' = s_ring_head st
  /\ s_ring_storage st' = s_ring_storage st
  /\ stderr_out st' = stderr_out st
  /\ g_total_bytes_pushed st' = g_total_bytes_pushed st
  /\ (g_total_bytes_popped st' = g_total_bytes_popped st
      \/ g_total_bytes_popped st' = cast_u64 (g_total_bytes_popped st + Z.of_nat (length bs))).
Proof.
  unfold ring_pop. intros Hrun.
  destruct (negb out || (len =? 0)%nat).
  - injection Hrun as <- _. auto 8 using ring_frame_refl.
  - apply bind_Ok_inv in Hrun as ([st1 popped] & Hloop & Hrun).
    apply ring_pop_loop_frame in Hloop as (Hframe & Hhead & Hstorage & Hpushed & Hpopped & Herr).
    injection Hrun as <- <-.
    destruct Hframe; repeat split; cbn; rewrite ?Hpopped; auto.
Qed.

(** ** Runs of interface calls *)

Lemma api_run_cons c cs st :
  api_run (c :: cs) st
  = match api_step c st with
    | Ok (st1, r) =>
        match api_run cs st1 with
        | Ok (st2, rs) => Ok (st2, r :: rs)
        | Fault f => Fault f
        end
    | Fault f => Fault f
    end.
Proof.
  cbn [api_run]. destruct (api_step c st) as [[st1 r] | f]; [| reflexivity].
  cbn. destruct (api_run cs st1) as [[st2 rs] | f]; reflexivity.
Qed.

Lemma api_step_push data st :
  api_step (Call_ring_push data) st
  = match ring_push data st with
    | Ok (st', k) => Ok (st', Ret_pushed k)
    | Fault f => Fault f
    end.
Proof. cbn [api_step]. destruct (ring_push data st) as [[st' k] | f]; reflexivity. Qed.

Lemma api_step_pop out len st :
  api_step (Call_ring_pop out len) st
  = match ring_pop out len st with
    | Ok (st', bs) => Ok (st', Ret_popped bs)
    | Fault f => Fault f
    end.
Proof. cbn [api_step]. destruct (ring_pop out len st) as [[st' bs] | f]; reflexivity. Qed.

(** A run of pushes and pops on a configured ring never faults, and the
    distance between the indices follows the counts the calls returned. *)
Lemma api_run_ring_io cs :
  forall st, ring_configured st -> forallb is_ring_io cs = true ->
  exists st' rs,
    api_run cs st = Ok (st', rs)
    /\ ring_configured st'
    /\ s_ring_capacity st' = s_ring_capacity st
    /\ ring_count st' = ring_count st + net_bytes rs.
Proof.
  induction cs as [| c cs IH]; intros st Hcfg Hio.
  - exists st, []. cbn. rewrite Z.add_0_r. auto.
  - cbn [forallb] in Hio. apply andb_prop in Hio as [Hc Hio].
    rewrite api_run_cons.
    destruct c; try discriminate Hc.
    + destruct (ring_push_spec data st Hcfg) as (st1 & k & Hpush & Hpost).
      rewrite api_step_push, Hpush.
      destruct Hpost as [_ Hcfg1 _ Hcount1 _ _ _ [_ Hcap1 _ _ _ _ _] _].
      destruct (IH st1 Hcfg1 Hio) as (st' & rs & -> & Hcfg' & Hcap' & Hcount').
      eexists _, _. split; [reflexivity |].
      cbn [net_bytes foldr ret_net]. fold (net_bytes rs).
      split; [assumption | split; [congruence | lia]].
    + destruct (ring_pop_spec out len st Hcfg) as (st1 & bs & Hpop & Hpost).
      rewrite api_step_pop, Hpop.
      destruct Hpost as [_ Hcfg1 _ _ Hcount1 _ _ _ [_ Hcap1 _ _ _ _ _] _ _].
      destruct (IH st1 Hcfg1 Hio) as (st' & rs & -> & Hcfg' & Hcap' & Hcount').
      eexists _, _. split; [reflexivity |].
      cbn [net_bytes foldr ret_net]. fold (net_bytes rs).
      split; [assumption | split; [congruence | lia]].
Qed.

(** C1. On a ring configured with a capacity between 1 and 1024 and empty
    at the start, after any sequence of [ring_push] and [ring_pop] calls:
    the calls all return; [head == tail] holds exactly when the bytes
    pushed less the bytes popped are zero; [prv_ring_full] holds exactly
    when they are [capacity - 1]; and [head] and [tail] lie in
    [[0, capacity)]. *)
Theorem ring_full_empty_disambiguation cs st :
  ring_configured st -> prv_ring_empty st = true -> forallb is_ring_io cs = true ->
  exists st' rs,
    api_run cs st = Ok (st', rs)
    /\ s_ring_capacity st' = s_ring_capacity st
    /\ (s_ring_head st' = s_ring_tail st' <-> net_bytes rs = 0)
    /\ (prv_ring_full st' = Ok true <-> net_bytes rs = s_ring_capacity st' - 1)
    /\ 0 <= s_ring_head st' < s_ring_capacity st'
    /\ 0 <= s_ring_tail st' < s_ring_capacity st'.
Proof.
  intros Hcfg Hempty Hio.
  rewrite (prv_ring_empty_count st Hcfg) in Hempty. apply Z.eqb_eq in Hempty.
  destruct (api_run_ring_io cs st Hcfg Hio) as (st' & rs & Hrun & Hcfg' & Hcap & Hcount).
  exists st', rs. rewrite Hempty, Z.add_0_l in Hcount.
  split; [exact Hrun |]. split; [exact Hcap |].
  pose proof (prv_ring_empty_count st' Hcfg') as He.
  pose proof (prv_ring_full_free st' Hcfg') as Hf.
  unfold prv_ring_empty, ring_free in *. rewrite Hf, <- Hcount.
  destruct Hcfg' as [Hc Hh Ht _].
  repeat split; try lia.
  - intros E. injection E as E. lia.
  - intros E. f_equal. lia.
Qed.

Lemma ring_full_empty_disambiguation_witness :
  let st := fst (module_set_config (Some (cfg_with_capacity 4%N)) initial_state) in
  let cs := [Call_ring_push (Some [x01; x02; x03; x04; x05]); Call_ring_pop true 2;
             Call_ring_push (Some [x06; x07; x08])] in
  exists st' rs,
    api_run cs st = Ok (st', rs)
    /\ s_ring_capacity st' = s_ring_capacity st
    /\ (s_ring_head st' = s_ring_tail st' <-> net_bytes rs = 0)
    /\ (prv_ring_full st' = Ok true <-> net_bytes rs = s_ring_capacity st' - 1)
    /\ 0 <= s_ring_head st' < s_ring_capacity st'
    /\ 0 <= s_ring_tail st' < s_ring_capacity st'.
Proof.
  intros st cs. apply (ring_full_empty_disambiguation cs st).
  - constructor; by_evaluation.
  - reflexivity.
  - reflexivity.
Defined.

(** C2. Pushing at most [capacity - 1] bytes into an empty configured ring
    and popping as many returns the same bytes in the same order and
    leaves the ring empty. *)
Theorem ring_round_trip s st :
  ring_configured st -> prv_ring_empty st = true ->
  Z.of_nat (length s) <= s_ring_capacity st - 1 ->
  exists st1 st2,
    ring_push (Some s) st = Ok (st1, length s)
    /\ ring_pop true (length s) st1 = Ok (st2, s)
    /\ prv_ring_empty st2 = true.
Proof.
  intros Hcfg Hempty Hlen.
  rewrite (prv_ring_empty_count st Hcfg) in Hempty. apply Z.eqb_eq in Hempty.
  assert (Hnil : ring_queued st = []).
  { apply length_zero_iff_nil. rewrite (ring_queued_length st Hcfg), Hempty. reflexivity. }
  destruct (ring_push_spec (Some s) st Hcfg) as (st1 & k & Hpush & Hpost).
  cbn [from_option id] in Hpost.
  destruct Hpost as [Hk Hcfg1 _ Hcount1 Hqueued1 _ _ _ _].
  assert (Ek : k = length s) by (unfold ring_free in Hk; lia). clear Hk. subst k.
  rewrite Hnil, take_ge, app_nil_l in Hqueued1 by lia.
  destruct (ring_pop_spec true (length s) st1 Hcfg1) as (st2 & bs & Hpop & Hpost).
  destruct Hpost as [Hbs Hcfg2 _ _ Hcount2 _ _ _ _ _ _].
  rewrite Hqueued1, take_ge in Hbs by lia. subst bs.
  exists st1, st2. split; [assumption | split; [assumption |]].
  rewrite (prv_ring_empty_count st2 Hcfg2). apply Z.eqb_eq. lia.
Qed.

Lemma ring_round_trip_witness :
  let st := fst (module_set_config (Some (cfg_with_capacity 4%N)) initial_state) in
  let s := [x41; x42; x43] in
  exists st1 st2,
    ring_push (Some s) st = Ok (st1, length s)
    /\ ring_pop true (length s) st1 = Ok (st2, s)
    /\ prv_ring_empty st2 = true.
Proof.
  intros st s. apply (ring_round_trip s st).
  - constructor; by_evaluation.
  - reflexivity.
  - by_evaluation.
Defined.

(** C3. A push of [n] bytes into a configured ring with [k < n] free slots
    returns [k] without a fault, adds [k] to [g_total_bytes_pushed], and
    queues the first [k] bytes in order behind the bytes already queued:
    a pop of any length returns that many bytes from the front of the old
    queue followed by the first [k] input bytes, and popping the old bytes
    first leaves exactly the first [k] input bytes for the next pop. *)
Theorem ring_push_truncation data st k :
  ring_configured st -> ring_free st = Z.of_nat k -> (k < length data)%nat ->
  exists st1,
    ring_push (Some data) st = Ok (st1, k)
    /\ g_total_bytes_pushed st1 = cast_u64 (g_total_bytes_pushed st + Z.of_nat k)
    /\ (forall len, exists st2,
          ring_pop true len st1 = Ok (st2, take len (ring_queued st ++ take k data)))
    /\ (exists st2 st3,
          ring_pop true (length (ring_queued st)) st1 = Ok (st2, ring_queued st)
          /\ ring_pop true k st2 = Ok (st3, take k data)
          /\ prv_ring_empty st3 = true).
Proof.
  intros Hcfg Hfree Hlt.
  destruct (ring_push_spec (Some data) st Hcfg) as (st1 & k' & Hpush & Hpost).
  cbn [from_option id] in Hpost.
  destruct Hpost as [Hk Hcfg1 _ Hcount1 Hqueued1 Htotal _ _ _].
  assert (Ek : k' = k) by lia. clear Hk. subst k'.
  exists st1. split; [exact Hpush |]. split.
  { destruct data; [cbn in Hlt; lia | exact Htotal]. }
  split.
  - intros len.
    destruct (ring_pop_spec true len st1 Hcfg1) as (st2 & bs & Hpop & [Hbs _ _ _ _ _ _ _ _ _ _]).
    exists st2. rewrite Hpop, Hbs, Hqueued1. reflexivity.
  - destruct (ring_pop_spec true (length (ring_queued st)) st1 Hcfg1)
      as (st2 & old & Hpop2 & [Hold Hcfg2 _ _ _ Hqueued2 _ _ _ _ _]).
    rewrite Hqueued1 in Hold, Hqueued2.
    rewrite take_app_length in Hold. rewrite drop_app_length in Hqueued2. subst old.
    destruct (ring_pop_spec true k st2 Hcfg2)
      as (st3 & new & Hpop3 & [Hnew Hcfg3 _ _ Hcount3 Hqueued3 _ _ _ _ _]).
    rewrite Hqueued2 in Hnew, Hqueued3.
    rewrite take_take, Nat.min_id in Hnew. subst new.
    exists st2, st3. split; [assumption | split; [assumption |]].
    rewrite (prv_ring_empty_count st3 Hcfg3). apply Z.eqb_eq.
    rewrite <- (Z2Nat.id (ring_count st3)) by (apply ring_count_range; assumption).
    rewrite <- (ring_queued_length st3 Hcfg3), Hqueued3.
    rewrite length_drop, length_take. lia.
Qed.

Lemma ring_push_truncation_witness :
  let st := fst (module_set_config (Some (cfg_with_capacity 4%N)) initial_state) in
  let data := [x41; x42; x43; x44; x45] in
  exists st1,
    ring_push (Some data) st = Ok (st1, 3%nat)
    /\ g_total_bytes_pushed st1 = cast_u64 (g_total_bytes_pushed st + 3)
    /\ (forall len, exists st2,
          ring_pop true len st1 = Ok (st2, take len (ring_queued st ++ take 3 data)))
    /\ (exists st2 st3,
          ring_pop true (length (ring_queued st)) st1 = Ok (st2, ring_queued st)
          /\ ring_pop true 3 st2 = Ok (st3, take 3 data)
          /\ prv_ring_empty st3 = true).
Proof.
  intros st data. apply (ring_push_truncation data st 3).
  - constructor; by_evaluation.
  - reflexivity.
  - by_evaluation.
Defined.

(** ** Configuration *)

Lemma capacity_invalid_false cfg :
  capacity_invalid cfg = false <-> 1 <= Z.of_N (ring_capacity cfg) <= RING_STORAGE_SIZE.
Proof.
  unfold capacity_invalid, RING_STORAGE_SIZE.
  destruct (Z.eqb_spec (Z.of_N (ring_capacity cfg)) 0);
    destruct (Z.gtb_spec (Z.of_N (ring_capacity cfg)) 1024); cbn; split;
    intros; (discriminate || lia || reflexivity).
Qed.

(** A ring whose indices were just zeroed is configured and has
    [capacity - 1] free slots. *)
Lemma ring_fresh st c :
  1 <= c <= RING_STORAGE_SIZE ->
  s_ring_capacity st = c -> s_ring_head st = 0 -> s_ring_tail st = 0 ->
  length (s_ring_storage st) = 1024%nat ->
  ring_configured st /\ ring_count st = 0 /\ ring_free st = c - 1.
Proof.
  intros Hc Ecap Eh Et Hs.
  assert (Hcount : ring_count st = 0).
  { unfold ring_count. rewrite Eh, Et. apply Z.mod_0_l. lia. }
  split; [constructor; lia |]. split; [exact Hcount |].
  unfold ring_free. lia.
Qed.

Lemma module_set_config_accepted cfg st :
  capacity_invalid cfg = false ->
  exists out,
    module_set_config (Some cfg) st
    = (set_stderr_out out
         (set_s_ring_head 0 (set_s_ring_tail 0
            (set_s_ring_capacity (Z.of_N (ring_capacity cfg))
               (set_s_log_level (log_level cfg) (set_g_config cfg st))))), true).
Proof.
  intros Hvalid. unfold module_set_config. rewrite Hvalid.
  match goal with
  | |- context [prv_log ?l ?t ?s] => destruct (prv_log_stderr l t s) as [out ->]
  end.
  exists out. reflexivity.
Qed.

Lemma module_init_accepted cfg st :
  let use := match cfg with Some c => c | None => g_config st end in
  capacity_invalid use = false ->
  exists out,
    module_init cfg st
    = (set_stderr_out out
         (set_s_stats {| n := 0; mean := 0; m2 := 0 |}
            (set_s_prng_state 0xCAFEBABE
               (set_s_crc_table_ready false
                  (set_s_ring_head 0 (set_s_ring_tail 0
                     (set_s_ring_capacity (Z.of_N (ring_capacity use))
                        (set_s_log_level (log_level use) (set_g_config use st)))))))),
       true).
Proof.
  intros use Hvalid. unfold module_init. fold use. rewrite Hvalid.
  match goal with
  | |- context [prv_log ?l ?t ?s] => destruct (prv_log_stderr l t s) as [out ->]
  end.
  exists out. reflexivity.
Qed.

Lemma configure_contract_accepted c st st' :
  1 <= Z.of_N c <= RING_STORAGE_SIZE ->
  s_ring_capacity st' = Z.of_N c -> s_ring_head st' = 0 -> s_ring_tail st' = 0 ->
  length (s_ring_storage st') = 1024%nat ->
  configure_contract c st (st', true).
Proof.
  intros Hc Ecap Eh Et Hs.
  destruct (ring_fresh st' (Z.of_N c) Hc Ecap Eh Et Hs) as (Hcfg & Hcount & Hfree).
  split; [tauto |]. split; [discriminate |]. intros _. cbn [fst].
  repeat (split; [assumption |]).
  intros data.
  destruct (ring_push_spec (Some data) st' Hcfg) as (st'' & k & Hpush & [Hk _ _ _ _ _ _ _ _]).
  exists st''. rewrite Hpush. do 2 f_equal. cbn [from_option id] in Hk. lia.
Qed.

Lemma configure_contract_rejected c st :
  ~ 1 <= Z.of_N c <= RING_STORAGE_SIZE -> configure_contract c st (st, false).
Proof.
  intros Hc. split; [| split]; cbn [fst snd]; try discriminate; try reflexivity.
  split; [discriminate | tauto].
Qed.

(** C5. [module_set_config] and [module_init] accept a requested capacity
    [c] exactly when [1 <= c <= 1024]; a rejected call, and a call with a
    NULL configuration, returns [false] and leaves every variable as it
    was; an accepted one sets the capacity to [c], zeroes [head] and
    [tail] and leaves room for exactly [c - 1] bytes. *)
Theorem configure_capacity_bound cfg st :
  length (s_ring_storage st) = 1024%nat ->
  configure_contract (ring_capacity cfg) st (module_set_config (Some cfg) st)
  /\ configure_contract (ring_capacity cfg) st (module_init (Some cfg) st)
  /\ configure_contract (ring_capacity (g_config st)) st (module_init None st)
  /\ module_set_config None st = (st, false).
Proof.
  intros Hs.
  assert (Hinit : forall cfg',
            let use := match cfg' with Some c => c | None => g_config st end in
            configure_contract (ring_capacity use) st (module_init cfg' st)).
  { intros cfg' use. destruct (capacity_invalid use) eqn:Hinv.
    - unfold module_init. fold use. rewrite Hinv.
      apply configure_contract_rejected. rewrite <- capacity_invalid_false. congruence.
    - destruct (module_init_accepted cfg' st Hinv) as [out ->]. fold use.
      apply configure_contract_accepted; try reflexivity; [| exact Hs].
      apply capacity_invalid_false. exact Hinv. }
  split; [| split; [apply (Hinit (Some cfg)) | split; [apply (Hinit None) | reflexivity]]].
  destruct (capacity_invalid cfg) eqn:Hinv.
  - unfold module_set_config. rewrite Hinv.
    apply configure_contract_rejected. rewrite <- capacity_invalid_false. congruence.
  - destruct (module_set_config_accepted cfg st Hinv) as [out ->].
    apply configure_contract_accepted; try reflexivity; [| exact Hs].
    apply capacity_invalid_false. exact Hinv.
Qed.

Lemma configure_capacity_bound_witness :
  let cfg := cfg_with_capacity 4%N in
  let st := initial_state in
  configure_contract (ring_capacity cfg) st (module_set_config (Some cfg) st)
  /\ configure_contract (ring_capacity cfg) st (module_init (Some cfg) st)
  /\ configure_contract (ring_capacity (g_config st)) st (module_init None st)
  /\ module_set_config None st = (st, false).
Proof.
  intros cfg st. apply (configure_capacity_bound cfg st). reflexivity.
Defined.

(** ** The interface, call by call *)

Lemma ring_same_refl st : ring_same st st.
Proof. constructor; reflexivity. Qed.

Lemma ring_same_configured st st' :
  ring_same st st' -> ring_configured st -> ring_configured st'.
Proof. intros [E1 E2 E3 E4 _ _] [Hc Hh Ht Hs]. constructor; congruence. Qed.

Lemma ring_same_unconfigured st st' :
  ring_same st st' -> ring_unconfigured st -> ring_unconfigured st'.
Proof. intros [E1 E2 E3 E4 _ _] [Hc Hh Ht Hs]. constructor; congruence. Qed.

Lemma ring_same_count st st' : ring_same st st' -> ring_count st' = ring_count st.
Proof. intros [E1 E2 E3 _ _ _]. unfold ring_count. congruence. Qed.

Lemma ring_same_conserved st st' : ring_same st st' -> conserved st -> conserved st'.
Proof.
  intros Hsame Hcons. unfold conserved. rewrite (ring_same_count _ _ Hsame).
  destruct Hsame as [_ _ _ _ E5 E6]. rewrite E5, E6. exact Hcons.
Qed.

Lemma api_step_passive c st :
  is_passive c = true ->
  exists st' r, api_step c st = Ok (st', r) /\ ring_same st st'.
Proof.
  destruct c; try discriminate; intros _; cbn [api_step].
  - unfold log_set_level.
    match goal with
    | |- context [prv_log ?l ?t ?s] => destruct (prv_log_stderr l t s) as [out ->]
    end.
    eexists _, _. split; [reflexivity | constructor; reflexivity].
  - unfold crc16_ccitt. destruct (s_crc_table_ready st);
      (eexists _, _; split; [reflexivity | constructor; reflexivity]).
  - unfold srand32.
    match goal with
    | |- context [prv_log ?l ?t ?s] => destruct (prv_log_stderr l t s) as [out ->]
    end.
    eexists _, _. split; [reflexivity | constructor; reflexivity].
  - eexists _, _. split; [reflexivity | constructor; reflexivity].
Qed.

Lemma module_reset_shape st :
  exists out,
    module_reset st
    = set_stderr_out out
        (set_g_total_bytes_popped 0
           (set_g_total_bytes_pushed 0 (set_s_ring_head 0 (set_s_ring_tail 0 st)))).
Proof.
  unfold module_reset.
  match goal with
  | |- context [prv_log ?l ?t ?s] => destruct (prv_log_stderr l t s) as [out ->]
  end.
  exists out. reflexivity.
Qed.

(** A configuration call either is rejected and changes nothing, or is
    accepted and leaves a ring with zeroed indices, the requested capacity
    and the counters it found. *)
Lemma api_step_configure c st :
  is_configure c = true ->
  exists st',
    api_step c st = Ok (st', Ret_bool (config_accepted c st))
    /\ (if config_accepted c st
        then 1 <= s_ring_capacity st' <= RING_STORAGE_SIZE
             /\ s_ring_head st' = 0 /\ s_ring_tail st' = 0
             /\ s_ring_storage st' = s_ring_storage st
             /\ g_total_bytes_pushed st' = g_total_bytes_pushed st
             /\ g_total_bytes_popped st' = g_total_bytes_popped st
        else st' = st).
Proof.
  destruct c; try discriminate; intros _; cbn [api_step config_accepted].
  - set (use := match cfg with Some c => c | None => g_config st end).
    destruct (capacity_invalid use) eqn:Hinv.
    + unfold module_init. fold use. rewrite Hinv. cbn. eauto.
    + destruct (module_init_accepted cfg st Hinv) as [out ->].
      apply capacity_invalid_false in Hinv.
      eexists. split; [reflexivity |]. cbn. fold use. auto 7.
  - destruct cfg as [cfg |]; [| cbn; eauto].
    destruct (capacity_invalid cfg) eqn:Hinv.
    + unfold module_set_config. rewrite Hinv. cbn. eauto.
    + destruct (module_set_config_accepted cfg st Hinv) as [out ->].
      apply capacity_invalid_false in Hinv.
      eexists. split; [reflexivity |]. cbn. auto 7.
Qed.

(** On a configured ring no call faults, and the ring stays configured;
    only a configuration call changes the capacity. *)
Lemma api_step_configured c st :
  ring_configured st ->
  exists st' r,
    api_step c st = Ok (st', r)
    /\ ring_configured st'
    /\ (is_configure c = false -> s_ring_capacity st' = s_ring_capacity st).
Proof.
  intros Hcfg.
  destruct (is_passive c) eqn:Hpassive.
  { destruct (api_step_passive c st Hpassive) as (st' & r & Hstep & Hsame).
    exists st', r. split; [exact Hstep |].
    split; [eapply ring_same_configured; eassumption |].
    intros _. apply Hsame. }
  destruct (is_configure c) eqn:Hconf.
  { destruct (api_step_configure c st Hconf) as (st' & Hstep & Hres).
    exists st', (Ret_bool (config_accepted c st)). split; [exact Hstep |].
    split; [| discriminate].
    destruct (config_accepted c st); [| subst st'; exact Hcfg].
    destruct Hres as (Hc & Eh & Et & Es & _).
    destruct Hcfg as [_ _ _ Hs]. constructor; (lia || congruence). }
  destruct c; try discriminate.
  - destruct (module_reset_shape st) as [out E].
    exists (module_reset st), Ret_void. split; [reflexivity |]. rewrite E.
    destruct Hcfg as [Hc Hh Ht Hs].
    split; [constructor; cbn; (lia || assumption) | reflexivity].
  - destruct (ring_push_spec data st Hcfg) as (st' & k & Hpush & Hpost).
    exists st', (Ret_pushed k). rewrite api_step_push, Hpush.
    split; [reflexivity |]. split; [apply Hpost |]. intros _. apply Hpost.
  - destruct (ring_pop_spec out len st Hcfg) as (st' & bs & Hpop & Hpost).
    exists st', (Ret_popped bs). rewrite api_step_pop, Hpop.
    split; [reflexivity |]. split; [apply Hpost |]. intros _. apply Hpost.
Qed.

Lemma api_run_configured cs :
  forall st, ring_configured st ->
  exists st' rs,
    api_run cs st = Ok (st', rs)
    /\ ring_configured st'
    /\ (forallb (fun c => negb (is_configure c)) cs = true ->
        s_ring_capacity st' = s_ring_capacity st).
Proof.
  induction cs as [| c cs IH]; intros st Hcfg.
  - exists st, []. auto.
  - destruct (api_step_configured c st Hcfg) as (st1 & r & Hstep & Hcfg1 & Hcap1).
    destruct (IH st1 Hcfg1) as (st' & rs & Hrun & Hcfg' & Hcap').
    exists st', (r :: rs). rewrite api_run_cons, Hstep, Hrun.
    split; [reflexivity |]. split; [exact Hcfg' |].
    cbn [forallb]. intros Hall. apply andb_prop in Hall as [Hc Hall].
    rewrite Hcap' by exact Hall. apply Hcap1.
    now destruct (is_configure c).
Qed.

Lemma api_step_ret_pushed c st st' k :
  api_step c st = Ok (st', Ret_pushed k) ->
  exists data, c = Call_ring_push data /\ ring_push data st = Ok (st', k).
Proof.
  destruct c; cbn [api_step]; intros H.
  - destruct (module_init cfg st). discriminate.
  - destruct (module_set_config cfg st). discriminate.
  - discriminate.
  - discriminate.
  - exists data. split; [reflexivity |].
    destruct (ring_push data st) as [[st1 k1] | f]; [| discriminate].
    injection H as <- <-. reflexivity.
  - destruct (ring_pop out len st) as [[st1 bs] | f]; discriminate.
  - destruct (crc16_ccitt data st). discriminate.
  - discriminate.
  - destruct (rand32 st). discriminate.
Qed.

(** ** Capacity one *)

Lemma ring_push_capacity_one data st :
  ring_configured st -> s_ring_capacity st = 1 ->
  exists st', ring_push data st = Ok (st', 0%nat).
Proof.
  intros Hcfg Hone.
  destruct (ring_push_spec data st Hcfg) as (st' & k & Hpush & [Hk _ _ _ _ _ _ _ _]).
  pose proof (ring_count_range st Hcfg) as Hcount.
  exists st'. rewrite Hpush. do 2 f_equal. unfold ring_free in Hk. lia.
Qed.

Lemma api_run_capacity_one cs :
  forall st, ring_configured st -> s_ring_capacity st = 1 ->
  forallb (fun c => negb (is_configure c)) cs = true ->
  exists st' rs,
    api_run cs st = Ok (st', rs)
    /\ ring_configured st'
    /\ s_ring_capacity st' = 1
    /\ forall k, In (Ret_pushed k) rs -> k = 0%nat.
Proof.
  induction cs as [| c cs IH]; intros st Hcfg Hone Hall.
  - exists st, []. cbn. tauto.
  - cbn [forallb] in Hall. apply andb_prop in Hall as [Hc Hall].
    apply negb_true_iff in Hc.
    destruct (api_step_configured c st Hcfg) as (st1 & r & Hstep & Hcfg1 & Hcap1).
    specialize (Hcap1 Hc). rewrite Hone in Hcap1.
    destruct (IH st1 Hcfg1 Hcap1 Hall) as (st' & rs & Hrun & Hcfg' & Hcap' & Hzero).
    exists st', (r :: rs). rewrite api_run_cons, Hstep, Hrun.
    split; [reflexivity |]. split; [exact Hcfg' |]. split; [exact Hcap' |].
    intros k [-> | Hin]; [| exact (Hzero k Hin)].
    apply api_step_ret_pushed in Hstep as (data & _ & Hpush).
    destruct (ring_push_capacity_one data st Hcfg Hone) as [st2 Hpush0].
    congruence.
Qed.

(** C8. [module_set_config] accepts capacity 1, and from then on, through
    any further calls that do not reconfigure the ring, every [ring_push]
    returns 0 whatever its input. *)
Theorem degenerate_capacity cfg st cs :
  ring_capacity cfg = 1%N ->
  length (s_ring_storage st) = 1024%nat ->
  forallb (fun c => negb (is_configure c)) cs = true ->
  snd (module_set_config (Some cfg) st) = true
  /\ exists st' rs,
       api_run cs (fst (module_set_config (Some cfg) st)) = Ok (st', rs)
       /\ (forall k, In (Ret_pushed k) rs -> k = 0%nat)
       /\ forall data, exists st'', ring_push data st' = Ok (st'', 0%nat).
Proof.
  intros Hone Hs Hall.
  assert (Hinv : capacity_invalid cfg = false)
    by (apply capacity_invalid_false; rewrite Hone; unfold RING_STORAGE_SIZE; lia).
  destruct (module_set_config_accepted cfg st Hinv) as [out ->]. cbn [fst snd].
  split; [reflexivity |].
  match goal with |- context [api_run cs ?s] => set (st1 := s) end.
  assert (Hcfg1 : ring_configured st1).
  { apply (ring_fresh st1 1); try reflexivity; [unfold RING_STORAGE_SIZE; lia | | exact Hs].
    subst st1. cbn. rewrite Hone. reflexivity. }
  assert (Hcap1 : s_ring_capacity st1 = 1) by (subst st1; cbn; rewrite Hone; reflexivity).
  destruct (api_run_capacity_one cs st1 Hcfg1 Hcap1 Hall)
    as (st' & rs & Hrun & Hcfg' & Hcap' & Hzero).
  exists st', rs. split; [exact Hrun |]. split; [exact Hzero |].
  intros data. apply ring_push_capacity_one; assumption.
Qed.

Lemma degenerate_capacity_witness :
  let cfg := cfg_with_capacity 1%N in
  let cs := [Call_ring_push (Some [x41; x42]); Call_ring_pop true 4; Call_module_reset;
             Call_ring_push (Some [x43])] in
  snd (module_set_config (Some cfg) initial_state) = true
  /\ exists st' rs,
       api_run cs (fst (module_set_config (Some cfg) initial_state)) = Ok (st', rs)
       /\ (forall k, In (Ret_pushed k) rs -> k = 0%nat)
       /\ forall data, exists st'', ring_push data st' = Ok (st'', 0%nat).
Proof.
  intros cfg cs. apply (degenerate_capacity cfg initial_state cs); reflexivity.
Defined.

(** ** The counters *)

(** C9. [module_reset] never faults and leaves [head], [tail] and both
    counters at zero; [ring_push] and [ring_pop] add the count they return
    to their own counter, or return early and leave it; every other call,
    the two configuration calls included, leaves both counters as they
    were. *)
Theorem reset_zeroes_counters c st :
  match api_step c st with
  | Ok (st', r) =>
      if is_reset c then
        s_ring_head st' = 0 /\ s_ring_tail st' = 0
        /\ g_total_bytes_pushed st' = 0 /\ g_total_bytes_popped st' = 0
      else if is_ring_io c then
        match r with
        | Ret_pushed k =>
            g_total_bytes_popped st' = g_total_bytes_popped st
            /\ (g_total_bytes_pushed st' = g_total_bytes_pushed st
                \/ g_total_bytes_pushed st'
                   = cast_u64 (g_total_bytes_pushed st + Z.of_nat k))
        | Ret_popped bs =>
            g_total_bytes_pushed st' = g_total_bytes_pushed st
            /\ (g_total_bytes_popped st' = g_total_bytes_popped st
                \/ g_total_bytes_popped st'
                   = cast_u64 (g_total_bytes_popped st + Z.of_nat (length bs)))
        | _ => False
        end
      else
        g_total_bytes_pushed st' = g_total_bytes_pushed st
        /\ g_total_bytes_popped st' = g_total_bytes_popped st
  | Fault _ => is_reset c = false
  end.
Proof.
  destruct (is_passive c) eqn:Hpassive.
  { destruct (api_step_passive c st Hpassive) as (st' & r & -> & Hsame).
    destruct c; try discriminate; cbn [is_reset is_ring_io]; split; apply Hsame. }
  destruct (is_configure c) eqn:Hconf.
  { destruct (api_step_configure c st Hconf) as (st' & -> & Hres).
    assert (His : is_reset c = false /\ is_ring_io c = false)
      by (destruct c; try discriminate; auto).
    destruct His as [-> ->].
    destruct (config_accepted c st); [tauto | subst st'; auto]. }
  destruct c; try discriminate; cbn [is_reset is_ring_io].
  - cbn [api_step]. destruct (module_reset_shape st) as [out ->]. cbn. auto.
  - rewrite api_step_push. destruct (ring_push data st) as [[st' k] | f] eqn:Hpush; [| reflexivity].
    apply ring_push_frame in Hpush. tauto.
  - rewrite api_step_pop. destruct (ring_pop out len st) as [[st' bs] | f] eqn:Hpop; [| reflexivity].
    apply ring_pop_frame in Hpop. tauto.
Qed.

(** ** Faults *)

(** Before any configuration call is accepted the capacity is zero, and a
    push of at least one byte takes a remainder by it. *)
Lemma ring_push_unconfigured b p st :
  s_ring_capacity st = 0 -> ring_push (Some (b :: p)) st = Fault DivisionByZero.
Proof.
  intros Hzero. cbn [ring_push ring_push_loop].
  unfold prv_ring_full, c_umod. rewrite Hzero. reflexivity.
Qed.

(** C10, as the code has it. After a configuration call was accepted, and
    whatever calls followed it, the capacity is between 1 and 1024, and
    [ring_push] and [ring_pop] return without a fault (no remainder by
    zero, no access outside the array), touching [s_ring_storage] only at
    indices below the capacity.  In the initial state, whose capacity is
    zero, a push of at least one byte through a non-NULL pointer takes a
    remainder by zero; [ring_pop] there needs no configuration: it finds
    [head == tail], takes no remainder and returns no byte. *)
Theorem ring_io_well_defined st0 c cs :
  length (s_ring_storage st0) = 1024%nat ->
  is_configure c = true -> config_accepted c st0 = true ->
  (exists st rs,
     api_run (c :: cs) st0 = Ok (st, rs)
     /\ 1 <= s_ring_capacity st <= RING_STORAGE_SIZE
     /\ (forall data, exists st' k new,
           ring_push data st = Ok (st', k)
           /\ storage_trace st' = new ++ storage_trace st
           /\ Forall (fun i => 0 <= i < s_ring_capacity st) new)
     /\ (forall out len, exists st' bs new,
           ring_pop out len st = Ok (st', bs)
           /\ storage_trace st' = new ++ storage_trace st
           /\ Forall (fun i => 0 <= i < s_ring_capacity st) new))
  /\ (forall b p, ring_push (Some (b :: p)) initial_state = Fault DivisionByZero)
  /\ (forall out len, exists st', ring_pop out len initial_state = Ok (st', [])).
Proof.
  intros Hs Hconf Hacc.
  split; [| split; [intros b p; apply ring_push_unconfigured; reflexivity |]].
  2:{ intros out len. unfold ring_pop.
      destruct out; cbn [negb orb]; [| eexists; reflexivity].
      destruct len as [| len]; cbn [Nat.eqb]; [eexists; reflexivity |].
      cbn [ring_pop_loop]. change (prv_ring_empty initial_state) with true.
      eexists. vm_compute. reflexivity. }
  destruct (api_step_configure c st0 Hconf) as (st1 & Hstep & Hres).
  rewrite Hacc in Hstep, Hres. destruct Hres as (Hc & Eh & Et & Es & _).
  assert (Hcfg1 : ring_configured st1) by (constructor; (lia || congruence)).
  destruct (api_run_configured cs st1 Hcfg1) as (st & rs & Hrun & Hcfg & _).
  exists st, (Ret_bool true :: rs). rewrite api_run_cons, Hstep, Hrun.
  split; [reflexivity |]. split; [apply Hcfg |]. split.
  - intros data.
    destruct (ring_push_spec data st Hcfg) as (st' & k & Hpush & Hpost).
    destruct (push_trace _ _ _ _ Hpost) as (new & Htrace & Hnew).
    exists st', k, new. auto.
  - intros out len.
    destruct (ring_pop_spec out len st Hcfg) as (st' & bs & Hpop & Hpost).
    destruct (pop_trace _ _ _ _ Hpost) as (new & Htrace & Hnew).
    exists st', bs, new. auto.
Qed.

Lemma ring_io_well_defined_witness :
  let c := Call_module_set_config (Some (cfg_with_capacity 4%N)) in
  let cs := [Call_ring_push (Some [x41; x42; x43; x44]); Call_ring_pop true 2] in
  (exists st rs,
     api_run (c :: cs) initial_state = Ok (st, rs)
     /\ 1 <= s_ring_capacity st <= RING_STORAGE_SIZE
     /\ (forall data, exists st' k new,
           ring_push data st = Ok (st', k)
           /\ storage_trace st' = new ++ storage_trace st
           /\ Forall (fun i => 0 <= i < s_ring_capacity st) new)
     /\ (forall out len, exists st' bs new,
           ring_pop out len st = Ok (st', bs)
           /\ storage_trace st' = new ++ storage_trace st
           /\ Forall (fun i => 0 <= i < s_ring_capacity st) new))
  /\ (forall b p, ring_push (Some (b :: p)) initial_state = Fault DivisionByZero)
  /\ (forall out len, exists st', ring_pop out len initial_state = Ok (st', [])).
Proof.
  intros c cs. apply (ring_io_well_defined initial_state c cs); reflexivity.
Defined.

(** C10, as it is stated, fails for [ring_pop]: at program start, with
    the capacity still zero and no configuration call made, a pop through
    a non-NULL pointer returns, with no byte, and does not fault. *)
Lemma ring_io_well_defined_counterexample :
  s_ring_capacity initial_state = 0
  /\ (exists st', ring_pop true 8 initial_state = Ok (st', []))
  /\ ~ (exists f, ring_pop true 8 initial_state = Fault f).
Proof.
  split; [reflexivity |]. split.
  - eexists. vm_compute. reflexivity.
  - intros [f Hfault]. vm_compute in Hfault. discriminate.
Qed.

(** ** Conservation *)

Lemma cast_u64_small x : 0 <= x < 2 ^ 64 -> cast_u64 x = x.
Proof. intros H. unfold cast_u64. apply Z.mod_small. exact H. Qed.

Lemma cast_u64_add_sub a b k :
  cast_u64 (cast_u64 (a + k) - b) = cast_u64 (cast_u64 (a - b) + k).
Proof.
  unfold cast_u64. rewrite Zminus_mod_idemp_l, Zplus_mod_idemp_l. f_equal. lia.
Qed.

Lemma cast_u64_sub_add a b k :
  cast_u64 (a - cast_u64 (b + k)) = cast_u64 (cast_u64 (a - b) - k).
Proof.
  unfold cast_u64. rewrite Zminus_mod_idemp_r, Zminus_mod_idemp_l. f_equal. lia.
Qed.

Lemma ring_count_zeroed st :
  s_ring_head st = s_ring_tail st -> ring_count st = 0.
Proof. intros E. unfold ring_count. rewrite E, Z.sub_diag. apply Zmod_0_l. Qed.

Lemma ring_count_unconfigured st : ring_unconfigured st -> ring_count st = 0.
Proof. intros [_ Eh Et _]. apply ring_count_zeroed. congruence. Qed.

Lemma ring_count_u64 st : ring_ok st -> 0 <= ring_count st < 2 ^ 64.
Proof.
  intros [Hcfg | Hun].
  - pose proof (ring_count_range st Hcfg). destruct Hcfg as [Hc _ _ _].
    unfold RING_STORAGE_SIZE in Hc. lia.
  - rewrite (ring_count_unconfigured st Hun). lia.
Qed.

Lemma conserved_after_push st st' k :
  ring_ok st' -> conserved st ->
  ring_count st' = ring_count st + Z.of_nat k ->
  g_total_bytes_popped st' = g_total_bytes_popped st ->
  g_total_bytes_pushed st' = cast_u64 (g_total_bytes_pushed st + Z.of_nat k) ->
  conserved st'.
Proof.
  unfold conserved. intros Hok Hcons Hcount Hpopped Hpushed.
  rewrite Hpushed, Hpopped, cast_u64_add_sub, Hcons, <- Hcount.
  apply cast_u64_small, ring_count_u64, Hok.
Qed.

Lemma conserved_after_pop st st' k :
  ring_ok st' -> conserved st ->
  ring_count st' = ring_count st - Z.of_nat k ->
  g_total_bytes_pushed st' = g_total_bytes_pushed st ->
  g_total_bytes_popped st' = cast_u64 (g_total_bytes_popped st + Z.of_nat k) ->
  conserved st'.
Proof.
  unfold conserved. intros Hok Hcons Hcount Hpushed Hpopped.
  rewrite Hpushed, Hpopped, cast_u64_sub_add, Hcons, <- Hcount.
  apply cast_u64_small, ring_count_u64, Hok.
Qed.

Lemma ring_pop_unconfigured out len st :
  ring_unconfigured st ->
  exists st', ring_pop out len st = Ok (st', [])
              /\ ring_unconfigured st'
              /\ g_total_bytes_pushed st' = g_total_bytes_pushed st
              /\ (g_total_bytes_popped st' = g_total_bytes_popped st
                  \/ g_total_bytes_popped st' = cast_u64 (g_total_bytes_popped st + 0)).
Proof.
  intros Hun. unfold ring_pop.
  destruct (negb out || (len =? 0)%nat) eqn:Hearly.
  - exists st. auto.
  - destruct len as [| len]; [destruct out; discriminate |].
    cbn [ring_pop_loop]. unfold prv_ring_empty.
    destruct Hun as [Ec Eh Et Es]. rewrite Eh, Et. cbn.
    eexists. split; [reflexivity |]. cbn. split; [constructor; assumption | auto].
Qed.

(** Every call keeps the counters in step with the ring, a configuration
    call when it is rejected or finds the ring empty. *)
Lemma api_step_conserved c st st' r :
  ring_ok st -> conserved st ->
  (config_accepted c st = true -> prv_ring_empty st = true) ->
  api_step c st = Ok (st', r) ->
  ring_ok st' /\ conserved st'.
Proof.
  intros Hok Hcons Hguard Hstep.
  destruct (is_passive c) eqn:Hpassive.
  { destruct (api_step_passive c st Hpassive) as (st1 & r1 & Hstep1 & Hsame).
    rewrite Hstep1 in Hstep. injection Hstep as <- _.
    split; [| eapply ring_same_conserved; eassumption].
    destruct Hok; [left; eapply ring_same_configured | right; eapply ring_same_unconfigured];
      eassumption. }
  destruct (is_configure c) eqn:Hconf.
  { destruct (api_step_configure c st Hconf) as (st1 & Hstep1 & Hres).
    rewrite Hstep1 in Hstep. injection Hstep as <- _.
    destruct (config_accepted c st); [| subst st1; auto].
    specialize (Hguard eq_refl). apply Z.eqb_eq in Hguard.
    destruct Hres as (Hc & Eh & Et & Es & Epushed & Epopped).
    assert (Hstorage : length (s_ring_storage st) = 1024%nat)
      by (destruct Hok as [[]|[]]; assumption).
    split; [left; constructor; (lia || congruence) |].
    unfold conserved in *. rewrite Epushed, Epopped, Hcons.
    rewrite (ring_count_zeroed st Hguard). symmetry. apply ring_count_zeroed. congruence. }
  destruct c; try discriminate.
  - cbn [api_step] in Hstep. injection Hstep as <- _.
    destruct (module_reset_shape st) as [out ->].
    split.
    + destruct Hok as [[Hc Hh Ht Hs] | [Hc Hh Ht Hs]];
        [left | right]; constructor; cbn; (lia || assumption).
    + unfold conserved. rewrite ring_count_zeroed by reflexivity. reflexivity.
  - rewrite api_step_push in Hstep.
    destruct Hok as [Hcfg | Hun].
    + destruct (ring_push_spec data st Hcfg) as (st1 & k & Hpush & Hpost).
      rewrite Hpush in Hstep. injection Hstep as <- _.
      destruct Hpost as [Hk Hcfg1 _ Hcount1 _ Hpushed Hpopped _ _].
      split; [left; exact Hcfg1 |].
      destruct (from_option id [] data) as [| b p] eqn:Hdata.
      * cbn in Hk. subst k.
        unfold conserved. rewrite Hpushed, Hpopped, Hcount1, Z.add_0_r. exact Hcons.
      * eapply conserved_after_push; try eassumption. left. exact Hcfg1.
    + destruct data as [[| b p] |];
        try (injection Hstep as <- _; split; [right |]; assumption).
      rewrite ring_push_unconfigured in Hstep by apply Hun. discriminate.
  - rewrite api_step_pop in Hstep.
    destruct Hok as [Hcfg | Hun].
    + destruct (ring_pop_spec out len st Hcfg) as (st1 & bs & Hpop & Hpost).
      rewrite Hpop in Hstep. injection Hstep as <- _.
      destruct Hpost as [Hbs Hcfg1 _ _ Hcount1 _ Hpopped Hpushed _ _ _].
      split; [left; exact Hcfg1 |].
      destruct (if out then len else 0%nat) as [| len'] eqn:Hlen.
      * cbn in Hbs. subst bs.
        unfold conserved. rewrite Hpushed, Hpopped, Hcount1. cbn. rewrite Z.sub_0_r.
        exact Hcons.
      * eapply conserved_after_pop; try eassumption. left. exact Hcfg1.
    + destruct (ring_pop_unconfigured out len st Hun)
        as (st1 & Hpop & Hun1 & Hpushed & Hpopped).
      rewrite Hpop in Hstep. injection Hstep as <- _.
      split; [right; exact Hun1 |].
      destruct Hpopped as [Hpopped | Hpopped].
      * unfold conserved. rewrite Hpushed, Hpopped.
        rewrite (ring_count_unconfigured st1 Hun1).
        rewrite <- (ring_count_unconfigured st Hun). exact Hcons.
      * apply (conserved_after_pop st st1 0); auto.
        -- right. exact Hun1.
        -- rewrite (ring_count_unconfigured st1 Hun1), (ring_count_unconfigured st Hun).
           reflexivity.
Qed.

(** A pop large enough to empty the ring returns [ring_count] bytes. *)
Lemma ring_drain st st' out :
  ring_ok st -> ring_pop true 1024 st = Ok (st', out) ->
  Z.of_nat (length out) = ring_count st.
Proof.
  intros [Hcfg | Hun] Hpop.
  - destruct (ring_pop_spec true 1024 st Hcfg) as (st1 & bs & Hpop1 & [Hbs _ _ _ _ _ _ _ _ _ _]).
    rewrite Hpop1 in Hpop. injection Hpop as _ <-. subst bs.
    pose proof (ring_count_range st Hcfg) as Hcount. destruct Hcfg as [Hc Hh Ht Hs].
    unfold RING_STORAGE_SIZE in Hc.
    rewrite length_take, ring_queued_length by (constructor; assumption). lia.
  - destruct (ring_pop_unconfigured true 1024 st Hun) as (st1 & Hpop1 & _).
    rewrite Hpop1 in Hpop. injection Hpop as _ <-.
    rewrite (ring_count_unconfigured st Hun). reflexivity.
Qed.

Lemma api_run_conserved cs :
  forall st st' rs,
  ring_ok st -> conserved st -> configures_when_empty cs st = true ->
  api_run cs st = Ok (st', rs) ->
  ring_ok st' /\ conserved st'.
Proof.
  induction cs as [| c cs IH]; intros st st' rs Hok Hcons Hguard Hrun.
  - injection Hrun as <- _. auto.
  - rewrite api_run_cons in Hrun. cbn [configures_when_empty] in Hguard.
    apply andb_prop in Hguard as [Hhere Hrest].
    destruct (api_step c st) as [[st1 r] | f] eqn:Hstep; [| discriminate].
    destruct (api_run cs st1) as [[st2 rs2] | f] eqn:Hrun1; [| discriminate].
    injection Hrun as <- _.
    assert (Hstep1 : ring_ok st1 /\ conserved st1).
    { apply (api_step_conserved c st st1 r); try assumption.
      intros Hacc. rewrite Hacc in Hhere. exact Hhere. }
    destruct Hstep1 as [Hok1 Hcons1].
    exact (IH st1 st2 rs2 Hok1 Hcons1 Hrest Hrun1).
Qed.

(** C4, as the code has it. From a state in which the counters are in step
    with the ring (the initial state is one), after any calls of the
    interface, resets included, in which every accepted configuration call
    found the ring empty: [g_total_bytes_pushed - g_total_bytes_popped],
    in [uint64_t], is the number of queued bytes, which is the number of
    bytes that a pop of 1024 returns.  If the ring was configured at the
    start, the calls all return. *)
Theorem counter_conservation cs st :
  ring_ok st -> conserved st -> configures_when_empty cs st = true ->
  (forall st' rs,
     api_run cs st = Ok (st', rs) ->
     cast_u64 (g_total_bytes_pushed st' - g_total_bytes_popped st') = ring_count st'
     /\ ring_count st' = Z.of_nat (length (ring_queued st'))
     /\ forall st'' out,
          ring_pop true 1024 st' = Ok (st'', out) ->
          Z.of_nat (length out)
          = cast_u64 (g_total_bytes_pushed st' - g_total_bytes_popped st'))
  /\ (ring_configured st -> exists st' rs, api_run cs st = Ok (st', rs)).
Proof.
  intros Hok Hcons Hguard. split.
  - intros st' rs Hrun.
    destruct (api_run_conserved cs st st' rs Hok Hcons Hguard Hrun) as [Hok' Hcons'].
    split; [exact Hcons' |]. split.
    + destruct Hok' as [Hcfg' | Hun'].
      * rewrite (ring_queued_length st' Hcfg').
        pose proof (ring_count_range st' Hcfg'). lia.
      * unfold ring_queued. rewrite (ring_count_unconfigured st' Hun'). reflexivity.
    + intros st'' out Hpop. rewrite Hcons'. eapply ring_drain; eassumption.
  - intros Hcfg. destruct (api_run_configured cs st Hcfg) as (st' & rs & Hrun & _).
    eauto.
Qed.

Lemma counter_conservation_witness :
  let cs := [Call_module_init None; Call_ring_push (Some [x41; x42; x43]);
             Call_ring_pop true 1; Call_module_set_config (Some (cfg_with_capacity 0%N));
             Call_module_reset; Call_module_set_config (Some (cfg_with_capacity 4%N));
             Call_ring_push (Some [x44; x45; x46; x47]); Call_ring_pop true 2] in
  (forall st' rs,
     api_run cs initial_state = Ok (st', rs) ->
     cast_u64 (g_total_bytes_pushed st' - g_total_bytes_popped st') = ring_count st'
     /\ ring_count st' = Z.of_nat (length (ring_queued st'))
     /\ forall st'' out,
          ring_pop true 1024 st' = Ok (st'', out) ->
          Z.of_nat (length out)
          = cast_u64 (g_total_bytes_pushed st' - g_total_bytes_popped st'))
  /\ (ring_configured initial_state -> exists st' rs, api_run cs initial_state = Ok (st', rs)).
Proof.
  intros cs. apply (counter_conservation cs initial_state).
  - right. constructor; reflexivity.
  - reflexivity.
  - reflexivity.
Defined.

(** C4, as the specification states it, fails: no reset is called, and yet
    after a second accepted configuration call the counters differ by
    three while nothing is queued. *)
Lemma counter_conservation_counterexample :
  let cs := [Call_module_set_config (Some (cfg_with_capacity 8%N));
             Call_ring_push (Some [x41; x42; x43]);
             Call_module_set_config (Some (cfg_with_capacity 8%N))] in
  forallb (fun c => negb (is_reset c)) cs = true
  /\ exists st' rs,
       api_run cs initial_state = Ok (st', rs)
       /\ g_total_bytes_pushed st' - g_total_bytes_popped st' = 3
       /\ ring_queued st' = []
       /\ (exists st'', ring_pop true 1024 st' = Ok (st'', []))
       /\ ~ conserved st'.
Proof.
  intros cs. split; [reflexivity |].
  destruct (api_run cs initial_state) as [[st' rs] | f] eqn:Hrun;
    vm_compute in Hrun; [| discriminate].
  injection Hrun as <- <-.
  eexists _, _. split; [reflexivity |].
  split; [reflexivity |]. split; [reflexivity |].
  split; [eexists; vm_compute; reflexivity |].
  vm_compute. discriminate.
Qed.

(** ** The CRC16 engine *)

(** Equality of integers bit by bit. *)
Tactic Notation "by_bits" ident(i) :=
  apply Z.bits_inj'; intros i ?;
  repeat first
    [ rewrite Z.lxor_spec
    | rewrite Z.land_spec
    | rewrite Z.testbit_mod_pow2 by lia
    | rewrite Z.shiftl_spec by lia
    | rewrite Z.shiftr_spec by lia
    | rewrite Z.pow2_bits_eqb by lia
    | rewrite Z.testbit_0_l ].

Lemma cast_u16_range x : 0 <= cast_u16 x < 2 ^ 16.
Proof. unfold cast_u16. apply Z.mod_pos_bound. lia. Qed.

Lemma cast_u16_lxor a b : cast_u16 (Z.lxor a b) = Z.lxor (cast_u16 a) (cast_u16 b).
Proof.
  unfold cast_u16. by_bits i.
  destruct (i <? 16), (Z.testbit a i), (Z.testbit b i); reflexivity.
Qed.

Lemma land_bit15 x : (Z.land x 0x8000 =? 0) = negb (Z.testbit x 15).
Proof.
  assert (E : Z.land x (2 ^ 15) = if Z.testbit x 15 then 2 ^ 15 else 0).
  { destruct (Z.testbit x 15) eqn:Hbit; by_bits i;
      destruct (Z.eqb_spec 15 i) as [<- |]; rewrite ?Hbit, ?andb_false_r; reflexivity. }
  change 0x8000 with (2 ^ 15). rewrite E.
  destruct (Z.testbit x 15); reflexivity.
Qed.

(** Both formulations of a round shift left and fold the polynomial in
    when bit 15 was set. *)
Lemma crc16_table_round_alt x :
  crc16_table_round x
  = Z.lxor (cast_u16 (Z.shiftl x 1)) (if Z.testbit x 15 then crc16_poly else 0).
Proof.
  unfold crc16_table_round. rewrite land_bit15.
  destruct (Z.testbit x 15); cbn [negb].
  - rewrite cast_u16_lxor. reflexivity.
  - rewrite Z.lxor_0_r. reflexivity.
Qed.

Lemma crc16_reference_bit_alt x :
  crc16_reference_bit x
  = Z.lxor (cast_u16 (Z.shiftl x 1)) (if Z.testbit x 15 then crc16_poly else 0).
Proof.
  unfold crc16_reference_bit, cast_u16.
  rewrite Z.shiftl_mul_pow2 by lia. rewrite (Z.mul_comm x (2 ^ 1)).
  change (2 ^ 1) with 2. change (2 ^ 16) with 65536.
  destruct (Z.testbit x 15); [reflexivity | now rewrite Z.lxor_0_r].
Qed.

Lemma crc16_table_round_reference x : crc16_table_round x = crc16_reference_bit x.
Proof. now rewrite crc16_table_round_alt, crc16_reference_bit_alt. Qed.

(** A round is linear over XOR. *)
Lemma crc16_reference_bit_lxor x y :
  crc16_reference_bit (Z.lxor x y)
  = Z.lxor (crc16_reference_bit x) (crc16_reference_bit y).
Proof.
  rewrite !crc16_reference_bit_alt, Z.shiftl_lxor, cast_u16_lxor, Z.lxor_spec.
  generalize (cast_u16 (Z.shiftl x 1)) (cast_u16 (Z.shiftl y 1)) crc16_poly.
  intros a b p.
  destruct (Z.testbit x 15), (Z.testbit y 15); cbn [xorb]; by_bits i;
    destruct (Z.testbit a i), (Z.testbit b i), (Z.testbit p i); reflexivity.
Qed.

Lemma crc16_reference_rounds_lxor k x y :
  Nat.iter k crc16_reference_bit (Z.lxor x y)
  = Z.lxor (Nat.iter k crc16_reference_bit x) (Nat.iter k crc16_reference_bit y).
Proof.
  induction k as [| k IH]; [reflexivity |].
  rewrite !Nat.iter_succ, IH. apply crc16_reference_bit_lxor.
Qed.

Lemma crc16_rounds_reference k x :
  Nat.iter k crc16_table_round x = Nat.iter k crc16_reference_bit x.
Proof.
  induction k as [| k IH]; [reflexivity |].
  rewrite !Nat.iter_succ, IH. apply crc16_table_round_reference.
Qed.

(** Eight rounds move a byte from the low half of the register to the
    high half: no set bit reaches bit 15 before the last round. *)
Lemma crc16_rounds_low_byte lo :
  0 <= lo < 256 -> Nat.iter 8 crc16_reference_bit lo = lo * 256.
Proof.
  intros Hlo.
  assert (Hall : forallb (fun i : nat =>
                   Nat.iter 8 crc16_reference_bit (Z.of_nat i) =? Z.of_nat i * 256)
                 (seq 0 256) = true) by (vm_compute; reflexivity).
  rewrite List.forallb_forall in Hall.
  specialize (Hall (Z.to_nat lo)).
  rewrite Z2Nat.id in Hall by lia. apply Z.eqb_eq, Hall.
  apply List.in_seq. lia.
Qed.

Lemma fold_insert_seq {A} (f : nat -> A) k :
  forall a (tbl : list A), (a + k <= length tbl)%nat ->
  fold_left (fun t (i : nat) => <[i := f i]> t) (seq a k) tbl
  = take a tbl ++ (f <$> seq a k) ++ drop (a + k) tbl.
Proof.
  induction k as [| k IH]; intros a tbl Hlen.
  - cbn [seq fold_left fmap list_fmap app]. rewrite Nat.add_0_r, take_drop. reflexivity.
  - cbn [seq fold_left]. rewrite IH by (rewrite length_insert; lia).
    rewrite (take_S_r _ a (f a)) by (apply list_lookup_insert_eq; lia).
    rewrite take_insert_ge by lia. rewrite drop_insert_lt by lia.
    rewrite fmap_cons, <- app_assoc.
    replace (S a + k)%nat with (a + S k)%nat by lia. reflexivity.
Qed.

(** [prv_crc16_build_table] overwrites all 256 entries. *)
Lemma prv_crc16_build_table_built st :
  length (s_crc16_table st) = 256%nat ->
  s_crc16_table (prv_crc16_build_table st) = crc16_table_built.
Proof.
  intros Hlen. unfold prv_crc16_build_table, set_s_crc16_table. cbn [s_crc16_table].
  rewrite fold_insert_seq by (rewrite Hlen; reflexivity).
  rewrite take_0, drop_ge, app_nil_r by (rewrite Hlen; reflexivity). reflexivity.
Qed.

Lemma crc16_table_built_lookup j :
  0 <= j < 256 -> default 0 (crc16_table_built !! Z.to_nat j) = crc16_table_entry j.
Proof.
  intros Hj. unfold crc16_table_built.
  rewrite list_lookup_fmap, lookup_seq_lt by lia.
  cbn [fmap option_fmap option_map from_option id]. rewrite Nat.add_0_l, Z2Nat.id by lia.
  reflexivity.
Qed.

Lemma cast_u8_lxor a b : cast_u8 (Z.lxor a b) = Z.lxor (cast_u8 a) (cast_u8 b).
Proof.
  unfold cast_u8. by_bits i.
  destruct (i <? 8), (Z.testbit a i), (Z.testbit b i); reflexivity.
Qed.

Lemma lxor_byte_range a b :
  0 <= a < 256 -> 0 <= b < 256 ->
  cast_u8 (Z.lxor a b) = Z.lxor a b /\ 0 <= Z.lxor a b < 256.
Proof.
  intros Ha Hb.
  assert (E : cast_u8 (Z.lxor a b) = Z.lxor a b).
  { rewrite cast_u8_lxor. unfold cast_u8. now rewrite !Z.mod_small by lia. }
  split; [exact E |]. rewrite <- E. unfold cast_u8. apply Z.mod_pos_bound. lia.
Qed.

Lemma byte_val_range b : 0 <= byte_val b < 256.
Proof.
  unfold byte_val. pose proof (Byte.to_N_bounded b). lia.
Qed.

Lemma crc16_table_round_range x : 0 <= crc16_table_round x < 2 ^ 16.
Proof.
  unfold crc16_table_round. destruct (Z.land x 32768 =? 0); apply cast_u16_range.
Qed.

Lemma crc16_table_entry_range j : 0 <= crc16_table_entry j < 2 ^ 16.
Proof.
  unfold crc16_table_entry. rewrite Nat.iter_succ. apply crc16_table_round_range.
Qed.

(** A register XORed with a byte moved to its high half is the XOR of the
    two in the high half, beside the low half as it was. *)
Lemma crc16_split crc bv :
  Z.lxor crc (256 * bv)
  = Z.lxor (Z.shiftl (Z.lxor (Z.shiftr crc 8) bv) 8) (cast_u8 crc).
Proof.
  replace (256 * bv) with (Z.shiftl bv 8) by (rewrite Z.shiftl_mul_pow2; lia).
  unfold cast_u8. apply Z.bits_inj'. intros i Hi.
  rewrite !Z.lxor_spec, Z.testbit_mod_pow2 by lia.
  destruct (Z.ltb_spec i 8).
  - rewrite !Z.shiftl_spec_low by lia. now destruct (Z.testbit crc i).
  - rewrite !Z.shiftl_spec, Z.lxor_spec, Z.shiftr_spec by lia.
    replace (i - 8 + 8) with i by lia.
    now destruct (Z.testbit crc i), (Z.testbit bv (i - 8)).
Qed.

(** One table lookup does the work of eight reference rounds. *)
Lemma crc16_update_reference crc b :
  0 <= crc < 2 ^ 16 ->
  crc16_update crc16_table_built crc b = crc16_reference_byte crc b.
Proof.
  intros Hcrc. unfold crc16_update, crc16_reference_byte.
  pose proof (byte_val_range b) as Hb.
  assert (Hhi : 0 <= Z.shiftr crc 8 < 256).
  { rewrite Z.shiftr_div_pow2 by lia. change (2 ^ 8) with 256.
    split; [apply Z.div_pos; lia | apply Z.div_lt_upper_bound; lia]. }
  destruct (lxor_byte_range _ _ Hhi Hb) as [Ej Hj].
  rewrite crc16_split, crc16_reference_rounds_lxor.
  rewrite (crc16_rounds_low_byte (cast_u8 crc))
    by (unfold cast_u8; apply Z.mod_pos_bound; lia).
  cbv zeta. rewrite Ej, crc16_table_built_lookup by exact Hj.
  rewrite cast_u16_lxor.
  rewrite (cast_u16_small (crc16_table_entry _)) by apply crc16_table_entry_range.
  unfold crc16_table_entry. rewrite crc16_rounds_reference.
  rewrite (cast_u16_small (Z.shiftl (Z.lxor _ _) 8))
    by (rewrite Z.shiftl_mul_pow2 by lia; change (2 ^ 8) with 256;
        change (2 ^ 16) with 65536; lia).
  rewrite Z.lxor_comm. f_equal.
  unfold cast_u16, cast_u8. rewrite Z.shiftl_mul_pow2 by lia.
  change (2 ^ 16) with (2 ^ 8 * 2 ^ 8). rewrite Zmult_mod_distr_r. reflexivity.
Qed.

Lemma crc16_fold_reference data :
  forall crc, 0 <= crc < 2 ^ 16 ->
  fold_left (crc16_update crc16_table_built) data crc
  = fold_left crc16_reference_byte data crc.
Proof.
  induction data as [| b data IH]; intros crc Hcrc; [reflexivity |].
  cbn [fold_left]. rewrite <- crc16_update_reference by exact Hcrc.
  apply IH. unfold crc16_update. apply cast_u16_range.
Qed.

(** Whatever the lazy build finds, [crc16_ccitt] folds the input over the
    built table. *)
Lemma crc16_ccitt_value data st :
  crc_table_inv st ->
  snd (crc16_ccitt data st) = fold_left (crc16_update crc16_table_built) data 0xFFFF
  /\ crc_table_inv (fst (crc16_ccitt data st))
  /\ s_crc_table_ready (fst (crc16_ccitt data st)) = true.
Proof.
  intros [Hlen Hready]. unfold crc16_ccitt.
  destruct (s_crc_table_ready st) eqn:Hr; cbn [fst snd].
  - rewrite (Hready eq_refl). repeat split; auto.
  - pose proof (prv_crc16_build_table_built st Hlen) as Hbuilt.
    cbn [s_crc16_table set_s_crc_table_ready s_crc_table_ready]. rewrite Hbuilt.
    repeat split; cbn [s_crc16_table set_s_crc_table_ready s_crc_table_ready];
      rewrite ?Hbuilt; reflexivity.
Qed.

Lemma crc_table_inv_ext st st' :
  s_crc16_table st' = s_crc16_table st ->
  s_crc_table_ready st' = s_crc_table_ready st ->
  crc_table_inv st -> crc_table_inv st'.
Proof. intros Et Er [Hlen Hready]. constructor; rewrite ?Et, ?Er; assumption. Qed.

(** No call leaves the ready flag set over a table that is not the built
    one. *)
Lemma api_step_crc_table_inv c st st' r :
  crc_table_inv st -> api_step c st = Ok (st', r) -> crc_table_inv st'.
Proof.
  intros Hinv Hstep. destruct c; cbn [api_step] in Hstep.
  - set (use := match cfg with Some c => c | None => g_config st end).
    destruct (capacity_invalid use) eqn:Hinvalid.
    + unfold module_init in Hstep. fold use in Hstep. rewrite Hinvalid in Hstep.
      injection Hstep as <- _. exact Hinv.
    + destruct (module_init_accepted cfg st Hinvalid) as [out E].
      rewrite E in Hstep. injection Hstep as <- _.
      destruct Hinv as [Hlen _]. constructor; [exact Hlen | discriminate].
  - destruct cfg as [cfg |]; [| injection Hstep as <- _; exact Hinv].
    destruct (capacity_invalid cfg) eqn:Hinvalid.
    + unfold module_set_config in Hstep. rewrite Hinvalid in Hstep.
      injection Hstep as <- _. exact Hinv.
    + destruct (module_set_config_accepted cfg st Hinvalid) as [out E].
      rewrite E in Hstep. injection Hstep as <- _.
      eapply crc_table_inv_ext; [| | exact Hinv]; reflexivity.
  - injection Hstep as <- _. destruct (module_reset_shape st) as [out ->].
    eapply crc_table_inv_ext; [| | exact Hinv]; reflexivity.
  - injection Hstep as <- _. unfold log_set_level.
    match goal with
    | |- context [prv_log ?l ?t ?s] => destruct (prv_log_stderr l t s) as [out ->]
    end.
    eapply crc_table_inv_ext; [| | exact Hinv]; reflexivity.
  - destruct (ring_push data st) as [[st1 k] | f] eqn:Hpush; [| discriminate].
    injection Hstep as <- _.
    apply ring_push_frame in Hpush as ([] & _).
    eapply crc_table_inv_ext; [| | exact Hinv]; assumption.
  - destruct (ring_pop out len st) as [[st1 bs] | f] eqn:Hpop; [| discriminate].
    injection Hstep as <- _.
    apply ring_pop_frame in Hpop as ([] & _).
    eapply crc_table_inv_ext; [| | exact Hinv]; assumption.
  - destruct (crc16_ccitt_value data st Hinv) as (_ & Hinv' & _).
    destruct (crc16_ccitt data st) as [st1 v]. injection Hstep as <- _. exact Hinv'.
  - injection Hstep as <- _. unfold srand32.
    match goal with
    | |- context [prv_log ?l ?t ?s] => destruct (prv_log_stderr l t s) as [out ->]
    end.
    eapply crc_table_inv_ext; [| | exact Hinv]; reflexivity.
  - injection Hstep as <- _.
    eapply crc_table_inv_ext; [| | exact Hinv]; reflexivity.
Qed.

Lemma api_run_crc_table_inv cs :
  forall st st' rs,
  crc_table_inv st -> api_run cs st = Ok (st', rs) -> crc_table_inv st'.
Proof.
  induction cs as [| c cs IH]; intros st st' rs Hinv Hrun.
  - injection Hrun as <- _. exact Hinv.
  - rewrite api_run_cons in Hrun.
    destruct (api_step c st) as [[st1 r] | f] eqn:Hstep; [| discriminate].
    destruct (api_run cs st1) as [[st2 rs2] | f] eqn:Hrun1; [| discriminate].
    injection Hrun as <- _.
    eapply IH; [| exact Hrun1]. eapply api_step_crc_table_inv; eassumption.
Qed.

Lemma crc_table_inv_initial : crc_table_inv initial_state.
Proof. constructor; [reflexivity | discriminate]. Qed.

(** C6. In every state a program can reach, however often the table was
    rebuilt on the way: [crc16_ccitt] of no bytes is [0xFFFF]; of the
    ASCII bytes "123456789" it is [0x29B1]; and of any bytes it is the
    same value as in any other reachable state, and the same again on the
    next call. *)
Theorem crc16_known_answers cs1 cs2 st1 st2 rs1 rs2 data :
  api_run cs1 initial_state = Ok (st1, rs1) ->
  api_run cs2 initial_state = Ok (st2, rs2) ->
  snd (crc16_ccitt [] st1) = 0xFFFF
  /\ snd (crc16_ccitt check_vector st1) = 0x29B1
  /\ snd (crc16_ccitt data st1) = snd (crc16_ccitt data st2)
  /\ snd (crc16_ccitt data (fst (crc16_ccitt data st1))) = snd (crc16_ccitt data st1).
Proof.
  intros Hrun1 Hrun2.
  pose proof (api_run_crc_table_inv cs1 _ _ _ crc_table_inv_initial Hrun1) as Hinv1.
  pose proof (api_run_crc_table_inv cs2 _ _ _ crc_table_inv_initial Hrun2) as Hinv2.
  destruct (crc16_ccitt_value data st1 Hinv1) as (Hv1 & Hinv1' & _).
  destruct (crc16_ccitt_value data st2 Hinv2) as (Hv2 & _).
  destruct (crc16_ccitt_value data _ Hinv1') as (Hv1' & _).
  destruct (crc16_ccitt_value [] st1 Hinv1) as (Hempty & _).
  destruct (crc16_ccitt_value check_vector st1 Hinv1) as (Hcheck & _).
  split; [rewrite Hempty; reflexivity |].
  split; [rewrite Hcheck; vm_compute; reflexivity |].
  split; congruence.
Qed.

Lemma crc16_known_answers_witness :
  let cs1 := [Call_crc16_ccitt [x00]; Call_module_init None; Call_crc16_ccitt [x01]] in
  let cs2 := [Call_log_set_level LOG_DEBUG] in
  let data := [x68; x65; x6c; x6c; x6f] in
  let st1 := final_state cs1 initial_state in
  let st2 := final_state cs2 initial_state in
  snd (crc16_ccitt [] st1) = 0xFFFF
  /\ snd (crc16_ccitt check_vector st1) = 0x29B1
  /\ snd (crc16_ccitt data st1) = snd (crc16_ccitt data st2)
  /\ snd (crc16_ccitt data (fst (crc16_ccitt data st1))) = snd (crc16_ccitt data st1).
Proof.
  intros cs1 cs2 data st1 st2.
  apply (crc16_known_answers cs1 cs2 st1 st2
           (final_rets cs1 initial_state) (final_rets cs2 initial_state) data);
    vm_compute; reflexivity.
Defined.

(** C7. For every input, the table-driven [crc16_ccitt] returns what the
    bit-by-bit CRC-16/CCITT-FALSE computation returns. *)
Theorem crc16_table_driven_is_bitwise data st :
  crc_table_inv st -> snd (crc16_ccitt data st) = crc16_reference data.
Proof.
  intros Hinv. destruct (crc16_ccitt_value data st Hinv) as (-> & _).
  unfold crc16_reference. apply crc16_fold_reference. lia.
Qed.

Lemma crc16_table_driven_is_bitwise_witness :
  snd (crc16_ccitt check_vector initial_state) = crc16_reference check_vector.
Proof.
  apply (crc16_table_driven_is_bitwise check_vector initial_state).
  constructor; [reflexivity | discriminate].
Defined.

(** * Further properties *)

(** ** The ring is a bounded queue *)

Lemma queue_run_cons cap c cs q :
  queue_run cap (c :: cs) q
  = (fst (queue_run cap cs (fst (queue_step cap c q))),
     snd (queue_step cap c q) :: snd (queue_run cap cs (fst (queue_step cap c q)))).
Proof.
  cbn [queue_run]. destruct (queue_step cap c q) as [q1 r]. cbn [fst snd].
  destruct (queue_run cap cs q1) as [q2 rs]. reflexivity.
Qed.

Lemma ring_free_room st :
  ring_configured st ->
  Z.to_nat (ring_free st)
  = (Z.to_nat (s_ring_capacity st - 1) - length (ring_queued st))%nat.
Proof.
  intros Hcfg. rewrite (ring_queued_length st Hcfg).
  pose proof (ring_count_range st Hcfg). unfold ring_free. lia.
Qed.

(** X1. A run of [ring_push] and [ring_pop] calls on a configured ring
    returns, call for call, what a first-in first-out queue bounded at
    [capacity - 1] bytes returns, and leaves queued what that queue
    holds. *)
Theorem ring_refines_queue cs st :
  ring_configured st -> forallb is_ring_io cs = true ->
  exists st',
    api_run cs st
    = Ok (st', snd (queue_run (s_ring_capacity st) cs (ring_queued st)))
    /\ ring_queued st' = fst (queue_run (s_ring_capacity st) cs (ring_queued st))
    /\ ring_configured st'.
Proof.
  revert st. induction cs as [| c cs IH]; intros st Hcfg Hio.
  - exists st. auto.
  - cbn [forallb] in Hio. apply andb_prop in Hio as [Hc Hio].
    rewrite api_run_cons, queue_run_cons. cbn [fst snd].
    destruct c; try discriminate Hc.
    + destruct (ring_push_spec data st Hcfg) as (st1 & k & Hpush & Hpost).
      rewrite api_step_push, Hpush.
      destruct Hpost as [Hk Hcfg1 _ _ Hqueued1 _ _ [_ Hcap1 _ _ _ _ _] _].
      assert (Hstep : queue_step (s_ring_capacity st) (Call_ring_push data) (ring_queued st)
                      = (ring_queued st1, Ret_pushed k)).
      { cbn [queue_step]. rewrite <- (ring_free_room st Hcfg), Hqueued1, Hk.
        destruct data; reflexivity. }
      rewrite Hstep. cbn [fst snd].
      destruct (IH st1 Hcfg1 Hio) as (st' & Hrun & Hqueued' & Hcfg').
      rewrite Hcap1 in Hrun, Hqueued'. rewrite Hrun.
      exists st'. auto.
    + destruct (ring_pop_spec out len st Hcfg) as (st1 & bs & Hpop & Hpost).
      rewrite api_step_pop, Hpop.
      destruct Hpost as [Hbs Hcfg1 _ _ _ Hqueued1 _ _ [_ Hcap1 _ _ _ _ _] _ _].
      assert (Hstep : queue_step (s_ring_capacity st) (Call_ring_pop out len) (ring_queued st)
                      = (ring_queued st1, Ret_popped bs)).
      { cbn [queue_step]. rewrite Hqueued1, Hbs. reflexivity. }
      rewrite Hstep. cbn [fst snd].
      destruct (IH st1 Hcfg1 Hio) as (st' & Hrun & Hqueued' & Hcfg').
      rewrite Hcap1 in Hrun, Hqueued'. rewrite Hrun.
      exists st'. auto.
Qed.

Lemma ring_refines_queue_witness :
  let st := fst (module_set_config (Some (cfg_with_capacity 4%N)) initial_state) in
  let cs := [Call_ring_push (Some [x41; x42; x43; x44; x45]); Call_ring_pop true 2;
             Call_ring_push (Some [x46; x47; x48]); Call_ring_pop true 9] in
  exists st',
    api_run cs st
    = Ok (st', snd (queue_run (s_ring_capacity st) cs (ring_queued st)))
    /\ ring_queued st' = fst (queue_run (s_ring_capacity st) cs (ring_queued st))
    /\ ring_configured st'.
Proof.
  intros st cs. apply (ring_refines_queue cs st).
  - constructor; by_evaluation.
  - reflexivity.
Defined.

(** X2. [ring_pop] never faults, whether or not the ring was configured:
    it returns the oldest queued bytes, at most [len] of them, and none
    through a NULL pointer or before the first accepted configuration. *)
Theorem ring_pop_never_faults out len st :
  ring_ok st ->
  exists st' bs,
    ring_pop out len st = Ok (st', bs)
    /\ bs = take (if out then len else O) (ring_queued st)
    /\ (length bs <= len)%nat
    /\ ring_ok st'.
Proof.
  intros [Hcfg | Hun].
  - destruct (ring_pop_spec out len st Hcfg) as (st' & bs & Hpop & Hpost).
    exists st', bs. split; [exact Hpop |].
    split; [apply Hpost |]. split; [| left; apply Hpost].
    rewrite (pop_bytes _ _ _ _ Hpost), length_take. destruct out; lia.
  - destruct (ring_pop_unconfigured out len st Hun) as (st' & Hpop & Hun' & _).
    exists st', []. split; [exact Hpop |].
    unfold ring_queued. rewrite (ring_count_unconfigured st Hun). cbn [Z.to_nat ring_walk].
    split; [now destruct out, len |]. split; [cbn; lia | right; exact Hun'].
Qed.

Lemma ring_pop_never_faults_witness :
  exists st' bs,
    ring_pop true 8 initial_state = Ok (st', bs)
    /\ bs = take 8 (ring_queued initial_state)
    /\ (length bs <= 8)%nat
    /\ ring_ok st'.
Proof.
  apply (ring_pop_never_faults true 8 initial_state).
  right. constructor; reflexivity.
Defined.

(** ** The logger *)

Lemma log_level_val_nonneg l : 0 <= log_level_val l <= 4.
Proof. destruct l; cbn; lia. Qed.

(** [prv_log] prints the line exactly when its level is above
    [LOG_SILENT] and not above [s_log_level]. *)
Lemma prv_log_cases lvl text st :
  (prv_log lvl text st = st
   /\ ~ 0 < log_level_val lvl <= log_level_val (s_log_level st))
  \/ (prv_log lvl text st
      = set_stderr_out ({| line_tag := lvl; line_text := text |} :: stderr_out st) st
      /\ 0 < log_level_val lvl <= log_level_val (s_log_level st)).
Proof.
  pose proof (log_level_val_nonneg lvl). unfold prv_log.
  destruct (Z.gtb_spec (log_level_val lvl) (log_level_val (s_log_level st)));
    destruct (Z.eqb_spec (log_level_val lvl) (log_level_val LOG_SILENT)) as [E | E];
    cbn [orb]; cbn in E; [left | left | left | right]; split; (reflexivity || lia).
Qed.

Lemma prv_log_discipline lvl text st :
  s_log_level (prv_log lvl text st) = s_log_level st
  /\ (stderr_out (prv_log lvl text st) = stderr_out st
      \/ exists line,
           stderr_out (prv_log lvl text st) = line :: stderr_out st
           /\ 0 < log_level_val (line_tag line) <= log_level_val (s_log_level st)).
Proof.
  destruct (prv_log_cases lvl text st) as [[-> _] | [-> Hlvl]]; [auto |].
  split; [reflexivity |]. right. eexists. split; [reflexivity | exact Hlvl].
Qed.

(** X3. On a configured ring, a push through a non-NULL pointer returns
    the lesser of the length asked for and the free slots; when that is
    less than asked, it prints one warning, with the requested and the
    queued count, if the log level is [LOG_WARN] or above; a push that
    queues everything, or a lower log level, prints nothing.  A push
    through a NULL pointer returns 0 and leaves every variable, the
    output stream included, as it was. *)
Theorem ring_push_truncation_warning data st :
  ring_configured st ->
  exists st' k,
    ring_push data st = Ok (st', k)
    /\ match data with
       | None => k = 0%nat /\ st' = st
       | Some p =>
           k = Nat.min (length p) (Z.to_nat (ring_free st))
           /\ stderr_out st'
              = if (k <? length p)%nat
                   && (log_level_val LOG_WARN <=? log_level_val (s_log_level st))
                then {| line_tag := LOG_WARN;
                        line_text := Text_ring_push_truncated (Z.of_nat (length p))
                                                              (Z.of_nat k) |}
                     :: stderr_out st
                else stderr_out st
       end.
Proof.
  intros Hcfg. destruct data as [[| b p] |].
  - exists st, 0%nat. cbn. auto.
  - destruct (ring_push_loop_spec (b :: p) 0 st Hcfg) as (s' & h' & new & Hrun & _).
    cbn zeta in Hrun. cbn [ring_push]. rewrite Hrun, bind_Ok. cbv beta iota.
    rewrite Nat.add_0_l.
    set (k := Nat.min (length (b :: p)) (Z.to_nat (ring_free st))).
    eexists _, k. split; [reflexivity |]. split; [reflexivity |].
    destruct (k <? length (b :: p))%nat; cbn [andb]; [| reflexivity].
    match goal with
    | |- context [prv_log ?l ?t ?s] => destruct (prv_log_cases l t s) as [[-> Hlvl] | [-> Hlvl]]
    end; cbn in Hlvl |- *.
    + destruct (Z.leb_spec 2 (log_level_val (s_log_level st))); [lia | reflexivity].
    + destruct (Z.leb_spec 2 (log_level_val (s_log_level st))); [reflexivity | lia].
  - exists st, 0%nat. cbn. auto.
Qed.

Lemma ring_push_truncation_warning_witness :
  let st := fst (module_set_config (Some (cfg_with_capacity 4%N)) initial_state) in
  let data := [x41; x42; x43; x44; x45] in
  exists st' k,
    ring_push (Some data) st = Ok (st', k)
    /\ k = Nat.min (length data) (Z.to_nat (ring_free st))
    /\ stderr_out st'
       = if (k <? length data)%nat
            && (log_level_val LOG_WARN <=? log_level_val (s_log_level st))
         then {| line_tag := LOG_WARN;
                 line_text := Text_ring_push_truncated (Z.of_nat (length data))
                                                       (Z.of_nat k) |}
              :: stderr_out st
         else stderr_out st.
Proof.
  intros st data. apply (ring_push_truncation_warning (Some data) st).
  constructor; by_evaluation.
Defined.

Lemma ring_push_stderr data st st' k :
  ring_push data st = Ok (st', k) ->
  s_log_level st' = s_log_level st
  /\ (stderr_out st' = stderr_out st
      \/ exists line,
           stderr_out st' = line :: stderr_out st
           /\ 0 < log_level_val (line_tag line) <= log_level_val (s_log_level st)).
Proof.
  intros Hrun.
  destruct data as [[| b p] |]; cbn [ring_push] in Hrun;
    try (injection Hrun as <- _; auto).
  apply bind_Ok_inv in Hrun as ([st1 pushed] & Hloop & Hrun).
  apply ring_push_loop_frame in Hloop as ([_ _ Hlevel _ _ _ _] & _ & _ & _ & Herr).
  injection Hrun as <- _.
  match goal with
  | |- context [if ?c then prv_log ?l ?t ?s else _] =>
      destruct c; [destruct (prv_log_discipline l t s) as [E1 E2]; revert E1 E2 |]
  end; cbn; rewrite ?Herr, ?Hlevel; auto.
Qed.

Lemma crc16_ccitt_stderr data st :
  stderr_out (fst (crc16_ccitt data st)) = stderr_out st.
Proof. unfold crc16_ccitt. destruct (s_crc_table_ready st); reflexivity. Qed.

(** [module_init] changes nothing, or prints one line after its updates. *)
Lemma module_init_log cfg st :
  module_init cfg st = (st, false)
  \/ exists lvl text S,
       module_init cfg st = (prv_log lvl text S, true) /\ stderr_out S = stderr_out st.
Proof.
  unfold module_init.
  destruct (capacity_invalid match cfg with Some c => c | None => g_config st end);
    [left; reflexivity | right].
  eexists _, _, _. split; reflexivity.
Qed.

(** X4. Each of [module_init], [module_set_config], [module_reset],
    [log_set_level], [ring_push], [ring_pop], [crc16_ccitt], [srand32]
    and [rand32] prints at most one line per call, and a line it prints
    has a level above [LOG_SILENT] and not above the log level in force
    when the call returns; so nothing is printed by such a call that
    returns with the level at [LOG_SILENT].  ([module_self_test], which
    is not among them, calls several of these and prints a line of its
    own.) *)
Theorem api_step_log_discipline c st st' r :
  api_step c st = Ok (st', r) ->
  (stderr_out st' = stderr_out st
   \/ exists line,
        stderr_out st' = line :: stderr_out st
        /\ 0 < log_level_val (line_tag line) <= log_level_val (s_log_level st'))
  /\ (s_log_level st' = LOG_SILENT -> stderr_out st' = stderr_out st).
Proof.
  intros Hstep.
  assert (Hmain : stderr_out st' = stderr_out st
                  \/ exists line,
                       stderr_out st' = line :: stderr_out st
                       /\ 0 < log_level_val (line_tag line)
                          <= log_level_val (s_log_level st')).
  { destruct c; cbn [api_step] in Hstep.
    - destruct (module_init_log cfg st) as [E | (lvl & text & S & E & Herr)];
        rewrite E in Hstep; injection Hstep as <- _; [auto |].
      destruct (prv_log_discipline lvl text S) as [E1 E2].
      rewrite E1, <- Herr. exact E2.
    - unfold module_set_config in Hstep. destruct cfg as [cfg |];
        [| injection Hstep as <- _; auto].
      destruct (capacity_invalid cfg); injection Hstep as <- _; [auto |].
      match goal with
      | |- context [prv_log ?l ?t ?s] => destruct (prv_log_discipline l t s) as [E1 E2]
      end.
      rewrite E1. exact E2.
    - injection Hstep as <- _. unfold module_reset.
      match goal with
      | |- context [prv_log ?l ?t ?s] => destruct (prv_log_discipline l t s) as [E1 E2]
      end.
      rewrite E1. exact E2.
    - injection Hstep as <- _. unfold log_set_level.
      match goal with
      | |- context [prv_log ?l ?t ?s] => destruct (prv_log_discipline l t s) as [E1 E2]
      end.
      rewrite E1. exact E2.
    - destruct (ring_push data st) as [[st1 k] | f] eqn:Hpush; [| discriminate].
      injection Hstep as <- _.
      apply ring_push_stderr in Hpush as [E1 E2]. rewrite E1. exact E2.
    - destruct (ring_pop out len st) as [[st1 bs] | f] eqn:Hpop; [| discriminate].
      injection Hstep as <- _.
      apply ring_pop_frame in Hpop as (_ & _ & _ & Herr & _). auto.
    - pose proof (crc16_ccitt_stderr data st) as Herr.
      destruct (crc16_ccitt data st) as [st1 v]. injection Hstep as <- _. auto.
    - injection Hstep as <- _. unfold srand32.
      match goal with
      | |- context [prv_log ?l ?t ?s] => destruct (prv_log_discipline l t s) as [E1 E2]
      end.
      rewrite E1. exact E2.
    - injection Hstep as <- _. auto. }
  split; [exact Hmain |].
  intros Hsilent. destruct Hmain as [E | (line & _ & Hlvl)]; [exact E |].
  rewrite Hsilent in Hlvl. cbn in Hlvl. lia.
Qed.

Lemma api_step_log_discipline_witness :
  let c := Call_log_set_level LOG_DEBUG in
  let st' := final_state [c] initial_state in
  (stderr_out st' = stderr_out initial_state
   \/ exists line,
        stderr_out st' = line :: stderr_out initial_state
        /\ 0 < log_level_val (line_tag line) <= log_level_val (s_log_level st'))
  /\ (s_log_level st' = LOG_SILENT -> stderr_out st' = stderr_out initial_state).
Proof.
  intros c st'.
  apply (api_step_log_discipline c initial_state st' Ret_void).
  vm_compute. reflexivity.
Defined.

(** ** The stored configuration *)

Lemma config_inv_ext st st' :
  g_config st' = g_config st -> s_ring_capacity st' = s_ring_capacity st ->
  config_inv st -> config_inv st'.
Proof. intros Ec Ecap [Hvalid Hmirror]. constructor; rewrite ?Ec, ?Ecap; assumption. Qed.

Lemma crc16_ccitt_config data st :
  g_config (fst (crc16_ccitt data st)) = g_config st
  /\ s_ring_capacity (fst (crc16_ccitt data st)) = s_ring_capacity st.
Proof. unfold crc16_ccitt. destruct (s_crc_table_ready st); split; reflexivity. Qed.

Lemma api_step_config_inv c st st' r :
  config_inv st -> api_step c st = Ok (st', r) -> config_inv st'.
Proof.
  intros Hinv Hstep. destruct c; cbn [api_step] in Hstep.
  - set (use := match cfg with Some c => c | None => g_config st end).
    destruct (capacity_invalid use) eqn:Hinvalid.
    + destruct (module_init_log cfg st) as [E | (lvl & text & S & E & _)];
        rewrite E in Hstep; injection Hstep as <- _; [exact Hinv |].
      assert (Hacc : snd (module_init cfg st) = false)
        by (unfold module_init; fold use; rewrite Hinvalid; reflexivity).
      rewrite E in Hacc. discriminate.
    + destruct (module_init_accepted cfg st Hinvalid) as [out E]. fold use in E.
      rewrite E in Hstep. injection Hstep as <- _.
      constructor; cbn; [exact Hinvalid | right; reflexivity].
  - destruct cfg as [cfg |]; [| injection Hstep as <- _; exact Hinv].
    destruct (capacity_invalid cfg) eqn:Hinvalid.
    + unfold module_set_config in Hstep. rewrite Hinvalid in Hstep.
      injection Hstep as <- _. exact Hinv.
    + destruct (module_set_config_accepted cfg st Hinvalid) as [out E].
      rewrite E in Hstep. injection Hstep as <- _.
      constructor; cbn; [exact Hinvalid | right; reflexivity].
  - injection Hstep as <- _. destruct (module_reset_shape st) as [out ->].
    eapply config_inv_ext; [| | exact Hinv]; reflexivity.
  - injection Hstep as <- _. unfold log_set_level.
    match goal with
    | |- context [prv_log ?l ?t ?s] => destruct (prv_log_stderr l t s) as [out ->]
    end.
    eapply config_inv_ext; [| | exact Hinv]; reflexivity.
  - destruct (ring_push data st) as [[st1 k] | f] eqn:Hpush; [| discriminate].
    injection Hstep as <- _.
    apply ring_push_frame in Hpush as ([] & _).
    eapply config_inv_ext; [| | exact Hinv]; assumption.
  - destruct (ring_pop out len st) as [[st1 bs] | f] eqn:Hpop; [| discriminate].
    injection Hstep as <- _.
    apply ring_pop_frame in Hpop as ([] & _).
    eapply config_inv_ext; [| | exact Hinv]; assumption.
  - destruct (crc16_ccitt_config data st) as [Ec Ecap].
    destruct (crc16_ccitt data st) as [st1 v]. injection Hstep as <- _.
    eapply config_inv_ext; [| | exact Hinv]; assumption.
  - injection Hstep as <- _. unfold srand32.
    match goal with
    | |- context [prv_log ?l ?t ?s] => destruct (prv_log_stderr l t s) as [out ->]
    end.
    eapply config_inv_ext; [| | exact Hinv]; reflexivity.
  - injection Hstep as <- _.
    eapply config_inv_ext; [| | exact Hinv]; reflexivity.
Qed.

Lemma api_run_config_inv cs :
  forall st st' rs, config_inv st -> api_run cs st = Ok (st', rs) -> config_inv st'.
Proof.
  induction cs as [| c cs IH]; intros st st' rs Hinv Hrun.
  - injection Hrun as <- _. exact Hinv.
  - rewrite api_run_cons in Hrun.
    destruct (api_step c st) as [[st1 r] | f] eqn:Hstep; [| discriminate].
    destruct (api_run cs st1) as [[st2 rs2] | f] eqn:Hrun1; [| discriminate].
    injection Hrun as <- _.
    eapply IH; [| exact Hrun1]. eapply api_step_config_inv; eassumption.
Qed.

(** X5. In every state a program reaches through the interface,
    [g_config] holds a capacity between 1 and 1024 and the active capacity
    is zero (nothing accepted yet) or equal to it; so [module_init(NULL)]
    is always accepted, and re-initialises the ring with the capacity of
    the last accepted configuration, or with the built-in 256. *)
Theorem module_init_null_accepted cs st rs :
  api_run cs initial_state = Ok (st, rs) ->
  1 <= Z.of_N (ring_capacity (g_config st)) <= RING_STORAGE_SIZE
  /\ (s_ring_capacity st = 0
      \/ s_ring_capacity st = Z.of_N (ring_capacity (g_config st)))
  /\ snd (module_init None st) = true
  /\ g_config (fst (module_init None st)) = g_config st
  /\ s_ring_capacity (fst (module_init None st)) = Z.of_N (ring_capacity (g_config st)).
Proof.
  intros Hrun.
  assert (Hinit : config_inv initial_state)
    by (constructor; [reflexivity | left; reflexivity]).
  destruct (api_run_config_inv cs _ _ _ Hinit Hrun) as [Hvalid Hmirror].
  split; [apply capacity_invalid_false; exact Hvalid |].
  split; [exact Hmirror |].
  destruct (module_init_accepted None st Hvalid) as [out ->].
  cbn. auto.
Qed.

Lemma module_init_null_accepted_witness :
  let cs := [Call_module_set_config (Some (cfg_with_capacity 0%N));
             Call_module_set_config (Some (cfg_with_capacity 16%N));
             Call_ring_push (Some [x41])] in
  let st := final_state cs initial_state in
  1 <= Z.of_N (ring_capacity (g_config st)) <= RING_STORAGE_SIZE
  /\ (s_ring_capacity st = 0
      \/ s_ring_capacity st = Z.of_N (ring_capacity (g_config st)))
  /\ snd (module_init None st) = true
  /\ g_config (fst (module_init None st)) = g_config st
  /\ s_ring_capacity (fst (module_init None st)) = Z.of_N (ring_capacity (g_config st)).
Proof.
  intros cs st.
  apply (module_init_null_accepted cs st (final_rets cs initial_state)).
  vm_compute. reflexivity.
Defined.

(** ** Cumulative counters *)

Lemma cast_u64_range x : 0 <= cast_u64 x < 2 ^ 64.
Proof. unfold cast_u64. apply Z.mod_pos_bound. lia. Qed.

Lemma ring_push_counter data st st' k :
  ring_push data st = Ok (st', k) ->
  (g_total_bytes_pushed st' = g_total_bytes_pushed st /\ k = 0%nat)
  \/ g_total_bytes_pushed st' = cast_u64 (g_total_bytes_pushed st + Z.of_nat k).
Proof.
  intros Hrun.
  destruct data as [[| b p] |]; cbn [ring_push] in Hrun;
    try (injection Hrun as <- <-; auto).
  apply bind_Ok_inv in Hrun as ([st1 pushed] & Hloop & Hrun).
  apply ring_push_loop_frame in Hloop as (_ & _ & Hpushed & _).
  injection Hrun as <- <-. right.
  match goal with
  | |- context [if ?c then prv_log ?l ?t ?s else _] =>
      destruct c; [destruct (prv_log_stderr l t s) as [out ->] |]
  end; cbn; rewrite Hpushed; reflexivity.
Qed.

Lemma ring_pop_counter out len st st' bs :
  ring_pop out len st = Ok (st', bs) ->
  (g_total_bytes_popped st' = g_total_bytes_popped st /\ bs = [])
  \/ g_total_bytes_popped st'
     = cast_u64 (g_total_bytes_popped st + Z.of_nat (length bs)).
Proof.
  unfold ring_pop. intros Hrun.
  destruct (negb out || (len =? 0)%nat).
  - injection Hrun as <- <-. auto.
  - apply bind_Ok_inv in Hrun as ([st1 popped] & Hloop & Hrun).
    apply ring_pop_loop_frame in Hloop as (_ & _ & _ & _ & Hpopped & _).
    injection Hrun as <- <-. right. cbn. rewrite Hpopped. reflexivity.
Qed.

Lemma api_step_counters c st st' r :
  is_reset c = false -> api_step c st = Ok (st', r) ->
  0 <= g_total_bytes_pushed st < 2 ^ 64 ->
  0 <= g_total_bytes_popped st < 2 ^ 64 ->
  g_total_bytes_pushed st' = cast_u64 (g_total_bytes_pushed st + pushed_total [r])
  /\ g_total_bytes_popped st' = cast_u64 (g_total_bytes_popped st + popped_total [r]).
Proof.
  intros Hc Hstep Hpushed Hpopped.
  assert (Hsame : forall a, 0 <= a < 2 ^ 64 -> a = cast_u64 (a + 0))
    by (intros a Ha; rewrite Z.add_0_r, cast_u64_small; [reflexivity | exact Ha]).
  destruct (is_passive c) eqn:Hpassive.
  { destruct (api_step_passive c st Hpassive) as (st1 & r1 & Hstep1 & [_ _ _ _ E1 E2]).
    rewrite Hstep1 in Hstep. injection Hstep as <- <-.
    rewrite E1, E2.
    destruct c; try discriminate; cbn [api_step] in Hstep1;
      try destruct (crc16_ccitt data st); try destruct (rand32 st);
      injection Hstep1 as _ <-; cbn; auto. }
  destruct (is_configure c) eqn:Hconf.
  { destruct (api_step_configure c st Hconf) as (st1 & Hstep1 & Hres).
    rewrite Hstep1 in Hstep. injection Hstep as <- <-. cbn.
    destruct (config_accepted c st).
    - destruct Hres as (_ & _ & _ & _ & -> & ->). auto.
    - subst st1. auto. }
  destruct c; try discriminate.
  - rewrite api_step_push in Hstep.
    destruct (ring_push data st) as [[st1 k] | f] eqn:Hpush; [| discriminate].
    injection Hstep as <- <-.
    pose proof (ring_push_counter _ _ _ _ Hpush) as Hcount.
    apply ring_push_frame in Hpush as (_ & _ & -> & _).
    cbn [pushed_total popped_total foldr]. rewrite !Z.add_0_r.
    split; [| symmetry; apply cast_u64_small; assumption].
    destruct Hcount as [[-> ->] | ->]; [| reflexivity].
    cbn. rewrite Z.add_0_r. symmetry. apply cast_u64_small. assumption.
  - rewrite api_step_pop in Hstep.
    destruct (ring_pop out len st) as [[st1 bs] | f] eqn:Hpop; [| discriminate].
    injection Hstep as <- <-.
    pose proof (ring_pop_counter _ _ _ _ _ Hpop) as Hcount.
    apply ring_pop_frame in Hpop as (_ & _ & _ & _ & -> & _).
    cbn [pushed_total popped_total foldr]. rewrite !Z.add_0_r.
    split; [symmetry; apply cast_u64_small; assumption |].
    destruct Hcount as [[-> ->] | ->]; [| reflexivity].
    cbn. rewrite Z.add_0_r. symmetry. apply cast_u64_small. assumption.
Qed.

Lemma pushed_total_cons r rs : pushed_total (r :: rs) = pushed_total [r] + pushed_total rs.
Proof. unfold pushed_total. cbn [foldr]. destruct r; lia. Qed.

Lemma popped_total_cons r rs : popped_total (r :: rs) = popped_total [r] + popped_total rs.
Proof. unfold popped_total. cbn [foldr]. destruct r; lia. Qed.

(** X6. Between resets the two counters are cumulative: after any calls
    of [module_init], [module_set_config], [log_set_level], [ring_push],
    [ring_pop], [crc16_ccitt], [srand32] and [rand32],
    [g_total_bytes_pushed] has grown by the sum of the counts the pushes
    returned and [g_total_bytes_popped] by the number of bytes the pops
    returned, both modulo [2^64]; the configuration calls and the other
    calls of this list add nothing.  ([module_reset] clears both, and so
    does [module_self_test], which calls it.) *)
Theorem counters_are_cumulative cs st st' rs :
  0 <= g_total_bytes_pushed st < 2 ^ 64 ->
  0 <= g_total_bytes_popped st < 2 ^ 64 ->
  forallb (fun c => negb (is_reset c)) cs = true ->
  api_run cs st = Ok (st', rs) ->
  g_total_bytes_pushed st' = cast_u64 (g_total_bytes_pushed st + pushed_total rs)
  /\ g_total_bytes_popped st' = cast_u64 (g_total_bytes_popped st + popped_total rs).
Proof.
  revert st st' rs. induction cs as [| c cs IH]; intros st st' rs Hpushed Hpopped Hall Hrun.
  - injection Hrun as <- <-. cbn. rewrite !Z.add_0_r, !cast_u64_small by assumption. auto.
  - cbn [forallb] in Hall. apply andb_prop in Hall as [Hc Hall].
    apply negb_true_iff in Hc.
    rewrite api_run_cons in Hrun.
    destruct (api_step c st) as [[st1 r] | f] eqn:Hstep; [| discriminate].
    destruct (api_run cs st1) as [[st2 rs2] | f] eqn:Hrun1; [| discriminate].
    injection Hrun as <- <-.
    destruct (api_step_counters c st st1 r Hc Hstep Hpushed Hpopped) as [E1 E2].
    assert (H1 : 0 <= g_total_bytes_pushed st1 < 2 ^ 64)
      by (rewrite E1; apply cast_u64_range).
    assert (H2 : 0 <= g_total_bytes_popped st1 < 2 ^ 64)
      by (rewrite E2; apply cast_u64_range).
    destruct (IH st1 st2 rs2 H1 H2 Hall Hrun1) as [-> ->].
    rewrite E1, E2, (pushed_total_cons r rs2), (popped_total_cons r rs2).
    unfold cast_u64. rewrite !Zplus_mod_idemp_l. split; f_equal; lia.
Qed.

Lemma counters_are_cumulative_witness :
  let cs := [Call_module_set_config (Some (cfg_with_capacity 4%N));
             Call_ring_push (Some [x41; x42; x43; x44; x45]); Call_ring_pop true 2;
             Call_module_set_config (Some (cfg_with_capacity 8%N));
             Call_ring_push (Some [x46]); Call_ring_pop false 4] in
  let st' := final_state cs initial_state in
  let rs := final_rets cs initial_state in
  g_total_bytes_pushed st'
  = cast_u64 (g_total_bytes_pushed initial_state + pushed_total rs)
  /\ g_total_bytes_popped st'
     = cast_u64 (g_total_bytes_popped initial_state + popped_total rs).
Proof.
  intros cs st' rs. apply (counters_are_cumulative cs initial_state st' rs).
  - by_evaluation.
  - by_evaluation.
  - reflexivity.
  - vm_compute. reflexivity.
Defined.

(** ** Reset *)

Lemma ring_push_pop_empty s st :
  ring_configured st -> ring_count st = 0 ->
  Z.of_nat (length s) <= s_ring_capacity st - 1 ->
  exists st1 st2,
    ring_push (Some s) st = Ok (st1, length s)
    /\ ring_pop true (length s) st1 = Ok (st2, s).
Proof.
  intros Hcfg Hempty Hlen.
  assert (Hnil : ring_queued st = []).
  { apply length_zero_iff_nil. rewrite (ring_queued_length st Hcfg), Hempty. reflexivity. }
  destruct (ring_push_spec (Some s) st Hcfg) as (st1 & k & Hpush & Hpost).
  cbn [from_option id] in Hpost.
  destruct Hpost as [Hk Hcfg1 _ _ Hqueued1 _ _ _ _].
  assert (Ek : k = length s) by (unfold ring_free in Hk; lia). clear Hk. subst k.
  rewrite Hnil, take_ge, app_nil_l in Hqueued1 by lia.
  destruct (ring_pop_spec true (length s) st1 Hcfg1) as (st2 & bs & Hpop & Hpost).
  destruct Hpost as [Hbs _ _ _ _ _ _ _ _ _ _].
  rewrite Hqueued1, take_ge in Hbs by lia. subst bs.
  exists st1, st2. auto.
Qed.

(** X7. [module_reset] on a configured ring discards whatever is queued
    without touching the array, the capacity or the stored configuration,
    and the ring is then good for a full round trip: any [capacity - 1]
    bytes or fewer pushed after it come back whole from the next pop. *)
Theorem module_reset_reclaims s st :
  ring_configured st ->
  Z.of_nat (length s) <= s_ring_capacity st - 1 ->
  ring_queued (module_reset st) = []
  /\ ring_free (module_reset st) = s_ring_capacity st - 1
  /\ s_ring_storage (module_reset st) = s_ring_storage st
  /\ s_ring_capacity (module_reset st) = s_ring_capacity st
  /\ g_config (module_reset st) = g_config st
  /\ exists st1 st2,
       ring_push (Some s) (module_reset st) = Ok (st1, length s)
       /\ ring_pop true (length s) st1 = Ok (st2, s).
Proof.
  intros Hcfg Hlen. destruct (module_reset_shape st) as [out E]. rewrite E.
  set (st0 := set_stderr_out out _).
  assert (Hfresh : ring_configured st0 /\ ring_count st0 = 0
                   /\ ring_free st0 = s_ring_capacity st - 1).
  { destruct Hcfg as [Hc Hh Ht Hs]. apply ring_fresh; try reflexivity; assumption. }
  destruct Hfresh as (Hcfg0 & Hcount0 & Hfree0).
  split.
  { apply length_zero_iff_nil. rewrite (ring_queued_length st0 Hcfg0), Hcount0. reflexivity. }
  split; [exact Hfree0 |].
  do 3 (split; [reflexivity |]).
  apply ring_push_pop_empty; assumption.
Qed.

Lemma module_reset_reclaims_witness :
  let st := final_state [Call_module_set_config (Some (cfg_with_capacity 4%N));
                         Call_ring_push (Some [x41; x42])] initial_state in
  let s := [x61; x62; x63] in
  ring_queued (module_reset st) = []
  /\ ring_free (module_reset st) = s_ring_capacity st - 1
  /\ s_ring_storage (module_reset st) = s_ring_storage st
  /\ s_ring_capacity (module_reset st) = s_ring_capacity st
  /\ g_config (module_reset st) = g_config st
  /\ exists st1 st2,
       ring_push (Some s) (module_reset st) = Ok (st1, length s)
       /\ ring_pop true (length s) st1 = Ok (st2, s).
Proof.
  intros st s. apply (module_reset_reclaims s st).
  - constructor; by_evaluation.
  - by_evaluation.
Defined.

(** ** The xorshift generator *)

Lemma cast_u32_range x : 0 <= cast_u32 x < 2 ^ 32.
Proof. unfold cast_u32. apply Z.mod_pos_bound. lia. Qed.

Lemma cast_u32_lxor a b : cast_u32 (Z.lxor a b) = Z.lxor (cast_u32 a) (cast_u32 b).
Proof.
  unfold cast_u32. by_bits i.
  destruct (i <? 32), (Z.testbit a i), (Z.testbit b i); reflexivity.
Qed.

Lemma lxor_u32_range a b :
  0 <= a < 2 ^ 32 -> 0 <= b < 2 ^ 32 -> 0 <= Z.lxor a b < 2 ^ 32.
Proof.
  intros Ha Hb. rewrite <- (cast_u32_small a Ha), <- (cast_u32_small b Hb), <- cast_u32_lxor.
  apply cast_u32_range.
Qed.

Lemma u32_high_bits x i : 0 <= x < 2 ^ 32 -> 32 <= i -> Z.testbit x i = false.
Proof.
  intros Hx Hi. rewrite <- (Z.mod_small x (2 ^ 32)) by exact Hx.
  rewrite Z.testbit_mod_pow2 by lia.
  destruct (Z.ltb_spec i 32); [lia | reflexivity].
Qed.

(** [x ^= x << s], truncated to 32 bits, loses nothing: the bits of [x]
    can be read back from the low end up. *)
Lemma xorshift_left_injective s x y :
  0 < s ->
  Z.lxor x (cast_u32 (Z.shiftl x s)) = Z.lxor y (cast_u32 (Z.shiftl y s)) ->
  x = y.
Proof.
  intros Hs Heq.
  assert (Hbits : forall k : nat, forall i, 0 <= i < Z.of_nat k ->
                  Z.testbit x i = Z.testbit y i).
  { induction k as [| k IH]; intros i Hi; [lia |].
    destruct (Z.ltb_spec i (Z.of_nat k)) as [Hlt | Hge]; [apply IH; lia |].
    assert (Hlow : Z.testbit x (i - s) = Z.testbit y (i - s)).
    { destruct (Z.ltb_spec (i - s) 0).
      - now rewrite !Z.testbit_neg_r by assumption.
      - apply IH. lia. }
    apply (f_equal (fun z => Z.testbit z i)) in Heq.
    unfold cast_u32 in Heq.
    rewrite !Z.lxor_spec, !Z.testbit_mod_pow2, !Z.shiftl_spec, Hlow in Heq by lia.
    destruct (Z.testbit x i), (Z.testbit y i), (i <? 32), (Z.testbit y (i - s));
      (reflexivity || discriminate). }
  apply Z.bits_inj'. intros i Hi. apply (Hbits (Z.to_nat (i + 1))). lia.
Qed.

(** [x ^= x >> 17] loses nothing on 32-bit values: the bits of [x] can be
    read back from the high end down. *)
Lemma xorshift_right_injective x y :
  0 <= x < 2 ^ 32 -> 0 <= y < 2 ^ 32 ->
  Z.lxor x (Z.shiftr x 17) = Z.lxor y (Z.shiftr y 17) ->
  x = y.
Proof.
  intros Hx Hy Heq.
  assert (Hbits : forall k : nat, forall i, 0 <= i -> 32 - Z.of_nat k <= i ->
                  Z.testbit x i = Z.testbit y i).
  { induction k as [| k IH]; intros i Hi Hk.
    - now rewrite !u32_high_bits by (assumption || lia).
    - destruct (Z.leb_spec (32 - Z.of_nat k) i) as [Hle | Hgt]; [apply IH; lia |].
      assert (Hhigh : Z.testbit x (i + 17) = Z.testbit y (i + 17)) by (apply IH; lia).
      apply (f_equal (fun z => Z.testbit z i)) in Heq.
      rewrite !Z.lxor_spec, !Z.shiftr_spec, Hhigh in Heq by lia.
      destruct (Z.testbit x i), (Z.testbit y i), (Z.testbit y (i + 17));
        (reflexivity || discriminate). }
  apply Z.bits_inj'. intros i Hi. apply (Hbits 32%nat); lia.
Qed.

Lemma shiftr_u32_range x k : 0 <= x < 2 ^ 32 -> 0 <= k -> 0 <= Z.shiftr x k < 2 ^ 32.
Proof.
  intros Hx Hk. rewrite Z.shiftr_div_pow2 by exact Hk.
  assert (0 < 2 ^ k) by (apply Z.pow_pos_nonneg; lia).
  split; [apply Z.div_pos; lia |].
  apply Z.le_lt_trans with x; [| lia].
  apply Z.div_le_upper_bound; [lia |]. nia.
Qed.

Lemma rand32_value st :
  rand32 st
  = let x := s_prng_state st in
    let x1 := Z.lxor x (cast_u32 (Z.shiftl x 13)) in
    let x2 := Z.lxor x1 (Z.shiftr x1 17) in
    let x3 := Z.lxor x2 (cast_u32 (Z.shiftl x2 5)) in
    (set_s_prng_state x3 st, x3).
Proof. reflexivity. Qed.

Lemma rand32_range st :
  0 <= s_prng_state st < 2 ^ 32 -> 0 <= snd (rand32 st) < 2 ^ 32.
Proof.
  intros Hx. rewrite rand32_value. cbn [snd].
  repeat first [ apply lxor_u32_range | apply cast_u32_range | apply shiftr_u32_range
               | assumption | lia ].
Qed.

Lemma rand32_one_to_one st1 st2 :
  0 <= s_prng_state st1 < 2 ^ 32 -> 0 <= s_prng_state st2 < 2 ^ 32 ->
  snd (rand32 st1) = snd (rand32 st2) ->
  s_prng_state st1 = s_prng_state st2.
Proof.
  intros H1 H2. rewrite !rand32_value. cbn [snd]. intros Heq.
  apply xorshift_left_injective in Heq; [| lia].
  apply xorshift_right_injective in Heq;
    [| apply lxor_u32_range; [assumption | apply cast_u32_range] ..].
  apply xorshift_left_injective in Heq; [exact Heq | lia].
Qed.

(** X8. [rand32] is one-to-one on 32-bit states: two different states
    never produce the same next value, so the generator never merges two
    sequences. *)
Theorem rand32_injective st1 st2 :
  0 <= s_prng_state st1 < 2 ^ 32 -> 0 <= s_prng_state st2 < 2 ^ 32 ->
  snd (rand32 st1) = snd (rand32 st2) ->
  s_prng_state st1 = s_prng_state st2.
Proof. apply rand32_one_to_one. Qed.

Lemma rand32_injective_witness :
  s_prng_state initial_state = s_prng_state (log_set_level LOG_ERROR initial_state).
Proof.
  apply (rand32_injective initial_state (log_set_level LOG_ERROR initial_state));
    by_evaluation.
Defined.

Lemma rand32_nonzero st : prng_inv st -> 0 < snd (rand32 st) < 2 ^ 32.
Proof.
  intros [Hpos Hlt].
  assert (Hrange : 0 <= snd (rand32 st) < 2 ^ 32) by (apply rand32_range; lia).
  destruct (Z.eq_dec (snd (rand32 st)) 0) as [Hzero |]; [| lia].
  assert (Hsame : s_prng_state st = s_prng_state (set_s_prng_state 0 st)).
  { apply rand32_one_to_one; [lia | cbn; lia |]. rewrite Hzero. reflexivity. }
  cbn in Hsame. lia.
Qed.

Lemma crc16_ccitt_prng data st :
  s_prng_state (fst (crc16_ccitt data st)) = s_prng_state st.
Proof. unfold crc16_ccitt. destruct (s_crc_table_ready st); reflexivity. Qed.

Lemma api_step_prng_inv c st st' r :
  call_typed c = true -> prng_inv st -> api_step c st = Ok (st', r) ->
  prng_inv st' /\ forall v, r = Ret_u32 v -> 0 < v < 2 ^ 32.
Proof.
  unfold prng_inv. intros Htyped Hinv Hstep. destruct c; cbn [api_step] in Hstep.
  - set (use := match cfg with Some c => c | None => g_config st end).
    destruct (capacity_invalid use) eqn:Hinvalid.
    + destruct (module_init_log cfg st) as [E | (lvl & text & S & E & _)];
        rewrite E in Hstep; injection Hstep as <- <-; [split; [exact Hinv | discriminate] |].
      assert (Hacc : snd (module_init cfg st) = false)
        by (unfold module_init; fold use; rewrite Hinvalid; reflexivity).
      rewrite E in Hacc. discriminate.
    + destruct (module_init_accepted cfg st Hinvalid) as [out E].
      rewrite E in Hstep. injection Hstep as <- <-. cbn. split; [lia | discriminate].
  - destruct cfg as [cfg |]; [| injection Hstep as <- <-; split; [exact Hinv | discriminate]].
    destruct (capacity_invalid cfg) eqn:Hinvalid.
    + unfold module_set_config in Hstep. rewrite Hinvalid in Hstep.
      injection Hstep as <- <-. split; [exact Hinv | discriminate].
    + destruct (module_set_config_accepted cfg st Hinvalid) as [out E].
      rewrite E in Hstep. injection Hstep as <- <-. split; [exact Hinv | discriminate].
  - injection Hstep as <- <-. destruct (module_reset_shape st) as [out ->].
    split; [exact Hinv | discriminate].
  - injection Hstep as <- <-. unfold log_set_level.
    match goal with
    | |- context [prv_log ?l ?t ?s] => destruct (prv_log_stderr l t s) as [out ->]
    end.
    split; [exact Hinv | discriminate].
  - destruct (ring_push data st) as [[st1 k] | f] eqn:Hpush; [| discriminate].
    injection Hstep as <- <-.
    apply ring_push_frame in Hpush as ([_ _ _ _ _ E _] & _).
    rewrite E. split; [exact Hinv | discriminate].
  - destruct (ring_pop out len st) as [[st1 bs] | f] eqn:Hpop; [| discriminate].
    injection Hstep as <- <-.
    apply ring_pop_frame in Hpop as ([_ _ _ _ _ E _] & _).
    rewrite E. split; [exact Hinv | discriminate].
  - pose proof (crc16_ccitt_prng data st) as E.
    destruct (crc16_ccitt data st) as [st1 v]. injection Hstep as <- <-.
    cbn [fst] in E. rewrite E. split; [exact Hinv | discriminate].
  - injection Hstep as <- <-. cbn [call_typed] in Htyped.
    apply andb_prop in Htyped as [Hlo Hhi].
    apply Z.leb_le in Hlo. apply Z.ltb_lt in Hhi.
    unfold srand32.
    match goal with
    | |- context [prv_log ?l ?t ?s] => destruct (prv_log_stderr l t s) as [out ->]
    end.
    cbn. split; [| discriminate].
    destruct (Z.eqb_spec seed 0); lia.
  - pose proof (rand32_nonzero st Hinv) as Hv.
    rewrite rand32_value in Hstep, Hv. cbv zeta in Hstep, Hv. cbn [snd] in Hv.
    injection Hstep as <- <-. cbn [s_prng_state set_s_prng_state].
    split; [exact Hv |]. intros v E. injection E as <-. exact Hv.
Qed.

(** X9. Seeded or not, the generator never reaches zero: from a state
    whose generator state is a non-zero 32-bit value (the initial state is
    one), after any calls of the interface whose [srand32] seeds are
    32-bit values, the generator state is again non-zero and every value
    that [rand32] returned lies in [[1, 2^32)]. *)
Theorem rand32_never_zero cs st st' rs :
  prng_inv st -> forallb call_typed cs = true ->
  api_run cs st = Ok (st', rs) ->
  prng_inv st' /\ forall v, In (Ret_u32 v) rs -> 0 < v < 2 ^ 32.
Proof.
  revert st st' rs. induction cs as [| c cs IH]; intros st st' rs Hinv Htyped Hrun.
  - injection Hrun as <- <-. split; [exact Hinv | intros v []].
  - cbn [forallb] in Htyped. apply andb_prop in Htyped as [Hc Htyped].
    rewrite api_run_cons in Hrun.
    destruct (api_step c st) as [[st1 r] | f] eqn:Hstep; [| discriminate].
    destruct (api_run cs st1) as [[st2 rs2] | f] eqn:Hrun1; [| discriminate].
    injection Hrun as <- <-.
    destruct (api_step_prng_inv c st st1 r Hc Hinv Hstep) as [Hinv1 Hr].
    destruct (IH st1 st2 rs2 Hinv1 Htyped Hrun1) as [Hinv2 Hrs].
    split; [exact Hinv2 |].
    intros v [E | Hin]; [exact (Hr v E) | exact (Hrs v Hin)].
Qed.

Lemma rand32_never_zero_witness :
  let cs := [Call_rand32; Call_srand32 0; Call_rand32; Call_module_init None; Call_rand32] in
  let st' := final_state cs initial_state in
  let rs := final_rets cs initial_state in
  prng_inv st' /\ forall v, In (Ret_u32 v) rs -> 0 < v < 2 ^ 32.
Proof.
  intros cs st' rs. apply (rand32_never_zero cs initial_state st' rs).
  - by_evaluation.
  - reflexivity.
  - vm_compute. reflexivity.
Defined.

(** ** What the checksum detects *)

Lemma crc16_update_range tbl crc b : 0 <= crc16_update tbl crc b < 2 ^ 16.
Proof. unfold crc16_update. apply cast_u16_range. Qed.

Lemma crc16_fold_range data :
  forall crc, 0 <= crc < 2 ^ 16 ->
  0 <= fold_left (crc16_update crc16_table_built) data crc < 2 ^ 16.
Proof.
  induction data as [| b data IH]; intros crc Hcrc; [exact Hcrc |].
  cbn [fold_left]. apply IH, crc16_update_range.
Qed.

Lemma crc16_reference_bit_range x : 0 <= crc16_reference_bit x < 2 ^ 16.
Proof. rewrite <- crc16_table_round_reference. apply crc16_table_round_range. Qed.

Lemma crc16_reference_rounds_range k x :
  0 <= x < 2 ^ 16 -> 0 <= Nat.iter k crc16_reference_bit x < 2 ^ 16.
Proof.
  intros Hx. destruct k as [| k]; [exact Hx |].
  rewrite Nat.iter_succ. apply crc16_reference_bit_range.
Qed.

Lemma lxor_u16_range a b :
  0 <= a < 2 ^ 16 -> 0 <= b < 2 ^ 16 -> 0 <= Z.lxor a b < 2 ^ 16.
Proof.
  intros Ha Hb. rewrite <- (cast_u16_small a Ha), <- (cast_u16_small b Hb), <- cast_u16_lxor.
  apply cast_u16_range.
Qed.

(** The polynomial has its constant term, so a round sends no register
    but zero to zero. *)
Lemma crc16_reference_bit_kernel x :
  0 <= x < 2 ^ 16 -> crc16_reference_bit x = 0 -> x = 0.
Proof.
  intros Hx Hzero. rewrite crc16_reference_bit_alt in Hzero.
  apply Z.lxor_eq in Hzero.
  destruct (Z.testbit x 15) eqn:Hbit.
  - apply (f_equal (fun z => Z.testbit z 0)) in Hzero.
    unfold cast_u16 in Hzero.
    rewrite Z.testbit_mod_pow2, Z.shiftl_spec, Z.testbit_neg_r in Hzero by lia.
    discriminate.
  - apply Z.testbit_false in Hbit; [| lia].
    unfold cast_u16 in Hzero. rewrite Z.shiftl_mul_pow2 in Hzero by lia.
    change (2 ^ 15) with 32768 in Hbit. change (2 ^ 16) with 65536 in *.
    change (2 ^ 1) with 2 in Hzero.
    assert (Hq : x / 32768 = 0).
    { assert (0 <= x / 32768 < 2)
        by (split; [apply Z.div_pos; lia | apply Z.div_lt_upper_bound; lia]).
      assert (Hcases : x / 32768 = 0 \/ x / 32768 = 1) by lia.
      destruct Hcases as [E | E]; [exact E |]. rewrite E in Hbit. discriminate. }
    assert (x < 32768).
    { pose proof (Z.div_mod x 32768 ltac:(lia)) as Hdm.
      pose proof (Z.mod_pos_bound x 32768 ltac:(lia)). lia. }
    rewrite Z.mod_small in Hzero by lia. lia.
Qed.

Lemma crc16_reference_bit_injective x y :
  0 <= x < 2 ^ 16 -> 0 <= y < 2 ^ 16 ->
  crc16_reference_bit x = crc16_reference_bit y -> x = y.
Proof.
  intros Hx Hy Heq. apply Z.lxor_eq.
  apply crc16_reference_bit_kernel; [apply lxor_u16_range; assumption |].
  rewrite crc16_reference_bit_lxor, Heq. apply Z.lxor_nilpotent.
Qed.

Lemma crc16_reference_rounds_injective k :
  forall x y, 0 <= x < 2 ^ 16 -> 0 <= y < 2 ^ 16 ->
  Nat.iter k crc16_reference_bit x = Nat.iter k crc16_reference_bit y -> x = y.
Proof.
  induction k as [| k IH]; intros x y Hx Hy Heq; [exact Heq |].
  rewrite !Nat.iter_succ in Heq.
  apply crc16_reference_bit_injective in Heq;
    [| apply crc16_reference_rounds_range; assumption ..].
  exact (IH x y Hx Hy Heq).
Qed.

Lemma byte_val_injective b b' : byte_val b = byte_val b' -> b = b'.
Proof.
  unfold byte_val. intros E. apply N2Z.inj in E.
  pose proof (Byte.of_to_N b) as H1. pose proof (Byte.of_to_N b') as H2.
  rewrite E in H1. congruence.
Qed.

Lemma byte_high_range b : 0 <= 256 * byte_val b < 2 ^ 16.
Proof. pose proof (byte_val_range b). change (2 ^ 16) with 65536. lia. Qed.

(** With the built table, a step of [crc16_ccitt] is one-to-one in the
    register and in the byte. *)
Lemma crc16_update_injective crc crc' b b' :
  0 <= crc < 2 ^ 16 -> 0 <= crc' < 2 ^ 16 ->
  crc16_update crc16_table_built crc b = crc16_update crc16_table_built crc' b' ->
  Z.lxor crc (256 * byte_val b) = Z.lxor crc' (256 * byte_val b').
Proof.
  intros Hc Hc'. rewrite !crc16_update_reference by assumption.
  unfold crc16_reference_byte.
  apply crc16_reference_rounds_injective;
    apply lxor_u16_range; (assumption || apply byte_high_range).
Qed.

Lemma crc16_fold_injective data :
  forall crc crc', 0 <= crc < 2 ^ 16 -> 0 <= crc' < 2 ^ 16 ->
  fold_left (crc16_update crc16_table_built) data crc
  = fold_left (crc16_update crc16_table_built) data crc' ->
  crc = crc'.
Proof.
  induction data as [| b data IH]; intros crc crc' Hc Hc' Heq; [exact Heq |].
  cbn [fold_left] in Heq.
  apply IH in Heq; [| apply crc16_update_range ..].
  apply crc16_update_injective in Heq; [| assumption ..].
  apply (f_equal (fun z => Z.lxor z (256 * byte_val b))) in Heq.
  now rewrite !Z.lxor_assoc, !Z.lxor_nilpotent, !Z.lxor_0_r in Heq.
Qed.

(** X10. The checksum detects every error confined to one byte: two
    messages that differ in exactly one byte, whatever precedes and
    follows it, never have the same CRC. *)
Theorem crc16_detects_byte_error pre suf b b' st :
  crc_table_inv st -> b <> b' ->
  snd (crc16_ccitt (pre ++ b :: suf) st) <> snd (crc16_ccitt (pre ++ b' :: suf) st).
Proof.
  intros Hinv Hne Heq.
  destruct (crc16_ccitt_value (pre ++ b :: suf) st Hinv) as (E1 & _).
  destruct (crc16_ccitt_value (pre ++ b' :: suf) st Hinv) as (E2 & _).
  rewrite E1, E2, !fold_left_app in Heq. cbn [fold_left] in Heq.
  set (crc := fold_left (crc16_update crc16_table_built) pre 65535) in Heq.
  assert (Hcrc : 0 <= crc < 2 ^ 16) by (apply crc16_fold_range; lia).
  apply crc16_fold_injective in Heq; [| apply crc16_update_range ..].
  apply crc16_update_injective in Heq; [| assumption ..].
  apply (f_equal (Z.lxor crc)) in Heq.
  rewrite <- !Z.lxor_assoc, !Z.lxor_nilpotent, !Z.lxor_0_l in Heq.
  apply Hne, byte_val_injective. lia.
Qed.

Lemma crc16_detects_byte_error_witness :
  snd (crc16_ccitt ([x31; x32] ++ x33 :: [x34]) initial_state)
  <> snd (crc16_ccitt ([x31; x32] ++ x73 :: [x34]) initial_state).
Proof.
  apply (crc16_detects_byte_error [x31; x32] [x34] x33 x73 initial_state).
  - constructor; [reflexivity | discriminate].
  - discriminate.
Defined.

(** X11. A message followed by its own CRC, high byte first, checks to
    zero: this is how a receiver verifies a frame. *)
Theorem crc16_residue_zero data hi lo st :
  crc_table_inv st ->
  byte_val hi = Z.shiftr (snd (crc16_ccitt data st)) 8 ->
  byte_val lo = Z.land (snd (crc16_ccitt data st)) 0xFF ->
  snd (crc16_ccitt (data ++ [hi; lo]) st) = 0.
Proof.
  intros Hinv.
  destruct (crc16_ccitt_value data st Hinv) as (-> & _).
  destruct (crc16_ccitt_value (data ++ [hi; lo]) st Hinv) as (-> & _).
  rewrite fold_left_app. cbn [fold_left].
  set (crc := fold_left (crc16_update crc16_table_built) data 65535).
  assert (Hcrc : 0 <= crc < 2 ^ 16) by (apply crc16_fold_range; lia).
  intros Hhi Hlo.
  assert (Hlow : 0 <= cast_u8 crc < 256)
    by (unfold cast_u8; apply Z.mod_pos_bound; lia).
  assert (Hfirst : crc16_update crc16_table_built crc hi = cast_u8 crc * 256).
  { rewrite crc16_update_reference by exact Hcrc. unfold crc16_reference_byte.
    rewrite crc16_split, Hhi, Z.lxor_nilpotent, Z.shiftl_0_l, Z.lxor_0_l.
    apply crc16_rounds_low_byte. exact Hlow. }
  rewrite Hfirst.
  rewrite crc16_update_reference by (change (2 ^ 16) with 65536; lia).
  unfold crc16_reference_byte. rewrite Hlo.
  change 255 with (Z.ones 8). rewrite Z.land_ones by lia. fold (cast_u8 crc).
  rewrite (Z.mul_comm 256), Z.lxor_nilpotent. reflexivity.
Qed.

Lemma crc16_residue_zero_witness :
  snd (crc16_ccitt (check_vector ++ [x29; xb1]) initial_state) = 0.
Proof.
  apply (crc16_residue_zero check_vector x29 xb1 initial_state).
  - constructor; [reflexivity | discriminate].
  - vm_compute. reflexivity.
  - vm_compute. reflexivity.
Defined.

(** ** The signed/unsigned fixture *)

(** X12. For a [uint8_t] and an [int8_t], [mix_signed_unsigned] returns a
    byte, the same byte as the all-unsigned sum [(u8)(ua + (u8)ib)] that
    [main] also writes, and mixing in the negated offset gives the first
    argument back: the signedness of the second argument changes no
    bit of the result. *)
Theorem mix_signed_unsigned_wraps ua ib :
  0 <= ua < 256 -> -128 <= ib < 128 ->
  0 <= mix_signed_unsigned ua ib < 256
  /\ mix_signed_unsigned ua ib = cast_u8 (ua + cast_u8 ib)
  /\ mix_signed_unsigned (mix_signed_unsigned ua ib) (cast_i8 (- ib)) = ua.
Proof.
  intros Hua Hib. unfold mix_signed_unsigned, cast_u8, cast_i8.
  change (2 ^ 8) with 256.
  repeat split; Z.div_mod_to_equations; lia.
Qed.

Lemma mix_signed_unsigned_wraps_witness :
  0 <= mix_signed_unsigned 200 (-60) < 256
  /\ mix_signed_unsigned 200 (-60) = cast_u8 (200 + cast_u8 (-60))
  /\ mix_signed_unsigned (mix_signed_unsigned 200 (-60)) (cast_i8 (- -60)) = 200.
Proof. apply (mix_signed_unsigned_wraps 200 (-60)); lia. Defined.

(** X13. [CLAMP_U8] of the sum of a [uint8_t] and an [int8_t] saturates
    where [mix_signed_unsigned] wraps: the two agree exactly when the sum
    already fits a byte, and otherwise the clamp is 0 or 255 and the
    wrapped value is neither. *)
Theorem clamp_agrees_with_wrap ua ib :
  0 <= ua < 256 -> -128 <= ib < 128 ->
  (CLAMP_U8 (ua + ib) = mix_signed_unsigned ua ib <-> 0 <= ua + ib <= 255)
  /\ (ua + ib < 0 -> CLAMP_U8 (ua + ib) = 0 /\ 128 <= mix_signed_unsigned ua ib)
  /\ (255 < ua + ib -> CLAMP_U8 (ua + ib) = 255 /\ mix_signed_unsigned ua ib < 127).
Proof.
  intros Hua Hib. unfold CLAMP_U8, mix_signed_unsigned, cast_u8.
  change (2 ^ 8) with 256.
  destruct (Z.gtb_spec (ua + ib) 255); [| destruct (Z.ltb_spec (ua + ib) 0)];
    repeat split; intros; Z.div_mod_to_equations; lia.
Qed.

Lemma clamp_agrees_with_wrap_witness :
  (CLAMP_U8 (200 + -60) = mix_signed_unsigned 200 (-60) <-> 0 <= 200 + -60 <= 255)
  /\ (200 + -60 < 0 -> CLAMP_U8 (200 + -60) = 0 /\ 128 <= mix_signed_unsigned 200 (-60))
  /\ (255 < 200 + -60 ->
      CLAMP_U8 (200 + -60) = 255 /\ mix_signed_unsigned 200 (-60) < 127).
Proof. apply (clamp_agrees_with_wrap 200 (-60)); lia. Defined.
